(** * scheduler/task.go: the task state machine, its spin loop, the task
  collection and the id generator.

  The Go code is embedded shallowly.  Machine integers are [Z] with the
  wrap-around written out, a goroutine is an entry of a list of live
  goroutines, a channel is a cell of a channel heap, and what the
  collaborators (schedule, workflow, clock) do is supplied from outside,
  one reading per use. *)

From Stdlib Require Import ZArith Lia.
From stdpp Require Import base list strings pretty gmap.

Local Open Scope Z_scope.

(** ** Go base types *)
Module Go.

(** [uint64], and [uint] on the 64-bit platforms the scheduler runs on. *)
Definition uint_bits : Z := 64.
Definition uint_mod : Z := 2 ^ uint_bits.

(** Unsigned arithmetic wraps around. *)
Definition wrap (z : Z) : Z := z mod uint_mod.

(** The conversion [int64(x)] of a [uint64]. *)
Definition int64 (z : Z) : Z := (z + 2 ^ 63) mod uint_mod - 2 ^ 63.

(** [strconv.FormatInt(i, 10)]. *)
Definition FormatInt10 (i : Z) : string := pretty i.

(** A [time.Time] is identified with one integer reading of the clock;
    [==] on two readings is equality of the integers.  [time.Time{}] is
    the zero reading. *)
Definition Time : Type := Z.
Definition zeroTime : Time := 0.

(** [time.Duration] counts nanoseconds. *)
Definition Duration : Type := Z.
Definition Second : Duration := 1000000000.

(** A channel that carries no buffered data is open or closed. *)
Inductive chan_state : Type := ChOpen | ChClosed.

Global Instance chan_state_eq_dec : EqDecision chan_state.
Proof. solve_decision. Defined.

(** Channels live in a heap indexed by address; [make] allocates the next
    address.  A channel variable holds [None] for [nil]. *)
Definition chan : Type := option nat.
Definition chan_heap : Type := list chan_state.

Definition make_chan (h : chan_heap) : chan * chan_heap :=
  (Some (length h), h ++ [ChOpen]).

(** [close(c)]: panics ([None]) on a nil channel and on a channel that is
    closed already. *)
Definition close_chan (c : chan) (h : chan_heap) : option chan_heap :=
  match c with
  | None => None
  | Some a =>
      match h !! a with
      | Some ChOpen => Some (<[a := ChClosed]> h)
      | _ => None
      end
  end.

(** [<-c] on a [chan struct{}] nobody sends on is ready exactly when the
    channel is closed; on a nil channel it blocks for ever. *)
Definition recv_ready (c : chan) (h : chan_heap) : bool :=
  match c with
  | None => false
  | Some a => bool_decide (h !! a = Some ChClosed)
  end.

End Go.

(** ** The identifier generator *)
Module IdGen.

(** [id()] is [atomic.AddUint64(&idCounter, 1)]: the counter is
    incremented modulo 2^64 and the new value is returned.  The function
    takes the counter and returns the id and the new counter. *)
Definition id (idCounter : Z) : Z * Z :=
  let c := Go.wrap (idCounter + 1) in (c, c).

(** The counter is a package variable, zero when the process starts. *)
Definition idCounter0 : Z := 0.

(** The counter after [n] calls, from counter [c]. *)
Definition after_calls (n : N) (c : Z) : Z :=
  N.iter n (fun c => snd (id c)) c.

(** The value returned by the [n]-th call of the process, [n >= 1]. *)
Definition nth_id (n : N) : Z :=
  fst (id (after_calls (N.pred n) idCounter0)).

End IdGen.

(** ** Tasks *)
Module Task.
Import Go.

(** Modelled from the spec: [core.TaskState], declared outside this file;
    the five lifecycle states. *)
Inductive TaskState : Type :=
| TaskDisabled | TaskStopped | TaskSpinning | TaskFiring | TaskEnded.

Global Instance TaskState_eq_dec : EqDecision TaskState.
Proof. solve_decision. Defined.

(** References to collaborator objects (schedule, workflow, work manager,
    metrics manager, event emitter) are opaque addresses. *)
Definition ref : Type := nat.

#[projections(primitive)] Record task : Type := mkTask {
  id : Z;
  name : string;
  schResponseChan : chan;
  killChan : chan;
  schedule : ref;
  workflow : ref;
  state : TaskState;
  creationTime : Time;
  lastFireTime : Time;
  manager : ref;
  metricsManager : ref;
  deadlineDuration : Duration;
  hitCount : Z;
  missedIntervals : Z;
  failedRuns : Z;
  lastFailureMessage : string;
  lastFailureTime : Time;
  stopOnFailure : Z;
  eventEmitter : ref
}.

(** Field assignments. *)
Definition set_name (v : string) (t : task) : task :=
  mkTask (id t) v (schResponseChan t) (killChan t) (schedule t)
    (workflow t) (state t) (creationTime t) (lastFireTime t) (manager t)
    (metricsManager t) (deadlineDuration t) (hitCount t)
    (missedIntervals t) (failedRuns t) (lastFailureMessage t)
    (lastFailureTime t) (stopOnFailure t) (eventEmitter t).

Definition set_killChan (v : chan) (t : task) : task :=
  mkTask (id t) (name t) (schResponseChan t) v (schedule t)
    (workflow t) (state t) (creationTime t) (lastFireTime t) (manager t)
    (metricsManager t) (deadlineDuration t) (hitCount t)
    (missedIntervals t) (failedRuns t) (lastFailureMessage t)
    (lastFailureTime t) (stopOnFailure t) (eventEmitter t).

Definition set_state (v : TaskState) (t : task) : task :=
  mkTask (id t) (name t) (schResponseChan t) (killChan t) (schedule t)
    (workflow t) v (creationTime t) (lastFireTime t) (manager t)
    (metricsManager t) (deadlineDuration t) (hitCount t)
    (missedIntervals t) (failedRuns t) (lastFailureMessage t)
    (lastFailureTime t) (stopOnFailure t) (eventEmitter t).

Definition set_lastFireTime (v : Time) (t : task) : task :=
  mkTask (id t) (name t) (schResponseChan t) (killChan t) (schedule t)
    (workflow t) (state t) (creationTime t) v (manager t)
    (metricsManager t) (deadlineDuration t) (hitCount t)
    (missedIntervals t) (failedRuns t) (lastFailureMessage t)
    (lastFailureTime t) (stopOnFailure t) (eventEmitter t).

Definition set_deadlineDuration (v : Duration) (t : task) : task :=
  mkTask (id t) (name t) (schResponseChan t) (killChan t) (schedule t)
    (workflow t) (state t) (creationTime t) (lastFireTime t) (manager t)
    (metricsManager t) v (hitCount t)
    (missedIntervals t) (failedRuns t) (lastFailureMessage t)
    (lastFailureTime t) (stopOnFailure t) (eventEmitter t).

Definition set_hitCount (v : Z) (t : task) : task :=
  mkTask (id t) (name t) (schResponseChan t) (killChan t) (schedule t)
    (workflow t) (state t) (creationTime t) (lastFireTime t) (manager t)
    (metricsManager t) (deadlineDuration t) v
    (missedIntervals t) (failedRuns t) (lastFailureMessage t)
    (lastFailureTime t) (stopOnFailure t) (eventEmitter t).

Definition set_missedIntervals (v : Z) (t : task) : task :=
  mkTask (id t) (name t) (schResponseChan t) (killChan t) (schedule t)
    (workflow t) (state t) (creationTime t) (lastFireTime t) (manager t)
    (metricsManager t) (deadlineDuration t) (hitCount t)
    v (failedRuns t) (lastFailureMessage t)
    (lastFailureTime t) (stopOnFailure t) (eventEmitter t).

Definition set_stopOnFailure (v : Z) (t : task) : task :=
  mkTask (id t) (name t) (schResponseChan t) (killChan t) (schedule t)
    (workflow t) (state t) (creationTime t) (lastFireTime t) (manager t)
    (metricsManager t) (deadlineDuration t) (hitCount t)
    (missedIntervals t) (failedRuns t) (lastFailureMessage t)
    (lastFailureTime t) v (eventEmitter t).

Definition DefaultDeadlineDuration : Duration := Second * 5.
Definition DefaultStopOnFailure : Z := 3.

(** *** Accessors *)
Definition GetName (t : task) : string := name t.
Definition SetName (n : string) (t : task) : task := set_name n t.
Definition DeadlineDuration (t : task) : Duration := deadlineDuration t.
Definition SetDeadlineDuration (d : Duration) (t : task) : task :=
  set_deadlineDuration d t.
Definition HitCount (t : task) : Z := hitCount t.
Definition ID (t : task) : Z := id t.
Definition MissedCount (t : task) : Z := missedIntervals t.
Definition FailedCount (t : task) : Z := failedRuns t.
Definition LastFailureMessage (t : task) : string := lastFailureMessage t.
Definition State (t : task) : TaskState := state t.
Definition SetStopOnFailure (v : Z) (t : task) : task :=
  set_stopOnFailure v t.
Definition GetStopOnFailure (t : task) : Z := stopOnFailure t.

(** Modelled from the spec: [core.TaskOption], declared outside this
    file.  An option function receives the task behind its public
    interface, whose only writers are the three setters. *)
Inductive TaskOption : Type :=
| OptSetName (n : string)
| OptSetDeadlineDuration (d : Duration)
| OptSetStopOnFailure (v : Z).

Definition apply_opt (t : task) (o : TaskOption) : task :=
  match o with
  | OptSetName n => SetName n t
  | OptSetDeadlineDuration d => SetDeadlineDuration d t
  | OptSetStopOnFailure v => SetStopOnFailure v t
  end.

(** [Option(opts...)]: applies the options in order. *)
Definition Option (opts : list TaskOption) (t : task) : task :=
  foldl apply_opt t opts.

(** The process state [newTask] reads and writes: the id counter and the
    channel heap. *)
Record proc : Type := mkProc {
  idCounter : Z;
  chans : chan_heap
}.

(** The task built by the struct literal of [newTask], before the options
    are applied; [now] is the reading of [time.Now()]. *)
Definition newTask_literal (taskId : Z) (rc : chan) (now : Time)
    (s wf m mm emitter : ref) : task :=
  {| id := taskId;
     name := "Task-" +:+ FormatInt10 (int64 taskId);
     schResponseChan := rc;
     killChan := None;
     schedule := s;
     workflow := wf;
     state := TaskStopped;
     creationTime := now;
     lastFireTime := zeroTime;
     manager := m;
     metricsManager := mm;
     deadlineDuration := DefaultDeadlineDuration;
     hitCount := 0;
     missedIntervals := 0;
     failedRuns := 0;
     lastFailureMessage := "";
     lastFailureTime := zeroTime;
     stopOnFailure := DefaultStopOnFailure;
     eventEmitter := emitter |}.

(** [newTask]; it also stores the emitter in the workflow object, which
    lives outside the task. *)
Definition newTask (p : proc) (now : Time) (s wf m mm emitter : ref)
    (opts : list TaskOption) : task * proc :=
  let '(taskId, c) := IdGen.id (idCounter p) in
  let '(rc, h) := make_chan (chans p) in
  (foldl apply_opt (newTask_literal taskId rc now s wf m mm emitter) opts,
   mkProc c h).

End Task.

(** ** The schedule collaborator's responses *)
Module Schedule.

(** Modelled from the spec: [schedule.ScheduleState] and
    [schedule.Response], declared outside this file.  A response carries a
    state tag and a missed-tick count. *)
Inductive ScheduleState : Type := Active | Ended | Error.

Record Response : Type := mkResponse {
  State : ScheduleState;
  Missed : Z
}.

End Schedule.

(** ** Scheduler events *)
Module scheduler_event.

(** [scheduler_event.TaskDisabledEvent], with the two fields the task
    fills in. *)
Record TaskDisabledEvent : Type := mkTaskDisabledEvent {
  TaskID : Z;
  Why : string
}.

End scheduler_event.

(** ** The spin loop and the calls that control it *)
Module Spin.
Import Go Task scheduler_event.

(** Modelled from the spec: [schedulerWorkflow.Start], defined outside this
    file.  The workflow runs with the task as context and reports a failed
    run through the task's failure fields: the failed-run count, the last
    failure message and the last failure time.  One run of the workflow is
    a function from the task it is started on to the values it leaves in
    these three fields. *)
Record wf_report : Type := mkReport {
  rep_failedRuns : Z;
  rep_lastFailureMessage : string;
  rep_lastFailureTime : Time
}.

Definition workflow_run : Type := task -> wf_report.

Definition workflow_Start (w : workflow_run) (t : task) : task :=
  let r := w t in
  mkTask (id t) (name t) (schResponseChan t) (killChan t) (schedule t)
    (workflow t) (state t) (creationTime t) (lastFireTime t) (manager t)
    (metricsManager t) (deadlineDuration t) (hitCount t)
    (missedIntervals t) (rep_failedRuns r) (rep_lastFailureMessage r)
    (rep_lastFailureTime r) (stopOnFailure t) (eventEmitter t).

(** A run that succeeds writes nothing. *)
Definition run_succeeds : workflow_run := fun t =>
  mkReport (failedRuns t) (lastFailureMessage t) (lastFailureTime t).

(** A run that fails with message [msg] counts the failure and stamps it
    with the time of the fire. *)
Definition run_fails (msg : string) : workflow_run := fun t =>
  mkReport (wrap (failedRuns t + 1)) msg (lastFireTime t).

(** The state one task lives in: the task object, the channel heap, the
    live [spin] goroutines of the task (each with its local
    [consecutiveFailures]) and the events handed to the emitter. *)
#[projections(primitive)] Record sys : Type := mkSys {
  tk : task;
  heap : chan_heap;
  spinners : list Z;
  emitted : list TaskDisabledEvent
}.

Definition with_tk (t : task) (s : sys) : sys :=
  mkSys t (heap s) (spinners s) (emitted s).

Definition with_spinners (l : list Z) (s : sys) : sys :=
  mkSys (tk s) (heap s) l (emitted s).

Definition Emit (e : TaskDisabledEvent) (s : sys) : sys :=
  mkSys (tk s) (heap s) (spinners s) (emitted s ++ [e]).

(** [Spin]: under the lock; from [TaskStopped] only. *)
Definition Spin (s : sys) : sys :=
  if decide (state (tk s) = TaskStopped) then
    let t1 := set_state TaskSpinning (tk s) in
    let '(k, h) := make_chan (heap s) in
    let t2 := set_killChan k t1 in
    mkSys t2 h (spinners s ++ [0]) (emitted s)
  else s.

(** [Stop]: [None] is a panic of [close]. *)
Definition Stop (s : sys) : option sys :=
  if decide (state (tk s) = TaskFiring ∨ state (tk s) = TaskSpinning) then
    match close_chan (killChan (tk s)) (heap s) with
    | Some h => Some (mkSys (tk s) h (spinners s) (emitted s))
    | None => None
    end
  else Some s.

(** [Kill]. *)
Definition Kill (s : sys) : option sys :=
  if decide (state (tk s) = TaskFiring ∨ state (tk s) = TaskSpinning) then
    match close_chan (killChan (tk s)) (heap s) with
    | Some h =>
        Some (mkSys (set_state TaskDisabled (tk s)) h (spinners s)
                (emitted s))
    | None => None
    end
  else Some s.

(** [fire]: under the lock, the workflow runs on the task in state
    [TaskFiring]. *)
Definition fire (w : workflow_run) (t : task) : task :=
  let t1 := set_state TaskFiring t in
  let t2 := workflow_Start w t1 in
  set_state TaskSpinning t2.

(** What the [select] of one loop iteration receives: the response that
    [waitForSchedule] sends, which is [t.schedule.Wait(t.lastFireTime)]
    (with the clock reading and the workflow run that an [Active] response
    leads to), or the kill signal.  A response can be received whether the
    kill signal is closed or not: [select] picks among the ready cases. *)
Inductive select_outcome : Type :=
| RecvResponse (sr : Schedule.Response) (now : Time) (w : workflow_run)
| RecvKill.

(** The four [return] statements of [spin]. *)
Inductive exit : Type :=
| ExitOnFailures | ExitEnded | ExitError | ExitKilled.

Inductive iter_result : Type :=
| Continue (consecutiveFailures : Z) (s : sys)
| Return (e : exit) (s : sys)
| Blocked.

Definition Sprintf_disabled (msg : string) : string :=
  "Task disabled with error: " +:+ msg.

(** The bookkeeping of the [Active] case up to and including [fire]. *)
Definition active_fire (sr : Schedule.Response) (now : Time)
    (w : workflow_run) (t : task) : task :=
  let t1 := set_missedIntervals
              (wrap (missedIntervals t + Schedule.Missed sr)) t in
  let t2 := set_lastFireTime now t1 in
  let t3 := set_hitCount (wrap (hitCount t2 + 1)) t2 in
  fire w t3.

(** One iteration of the [for] loop of [spin], from the [select] on.  The
    kill case is [Blocked] while the kill signal is not closed.  The
    deferred [Emit] runs as [spin] returns. *)
Definition spin_iter (o : select_outcome) (consecutiveFailures : Z)
    (s : sys) : iter_result :=
  match o with
  | RecvResponse sr now w =>
      match Schedule.State sr with
      | Schedule.Active =>
          let t := active_fire sr now w (tk s) in
          let cf :=
            if decide (lastFailureTime t = lastFireTime t)
            then wrap (consecutiveFailures + 1) else 0 in
          if decide (stopOnFailure t <= cf) then
            let t' := set_state TaskDisabled t in
            let event :=
              mkTaskDisabledEvent (id t')
                (Sprintf_disabled (lastFailureMessage t')) in
            Return ExitOnFailures (Emit event (with_tk t' s))
          else Continue cf (with_tk t s)
      | Schedule.Ended =>
          Return ExitEnded (with_tk (set_state TaskEnded (tk s)) s)
      | Schedule.Error =>
          Return ExitError (with_tk (set_state TaskDisabled (tk s)) s)
      end
  | RecvKill =>
      if recv_ready (killChan (tk s)) (heap s) then
        let t1 := set_state TaskStopped (tk s) in
        let t2 := set_lastFireTime zeroTime t1 in
        Return ExitKilled (with_tk t2 s)
      else Blocked
  end.

(** The loop, run against the outcomes of its successive [select]s.  With
    no outcome left the goroutine is parked at the [select]. *)
Fixpoint spin_from (os : list select_outcome) (consecutiveFailures : Z)
    (s : sys) : iter_result :=
  match os with
  | [] => Continue consecutiveFailures s
  | o :: os' =>
      match spin_iter o consecutiveFailures s with
      | Continue cf s' => spin_from os' cf s'
      | r => r
      end
  end.

(** [spin]: [var consecutiveFailures uint] starts at zero. *)
Definition spin (os : list select_outcome) (s : sys) : iter_result :=
  spin_from os 0 s.

(** *** Interleavings

    What can happen to a task: a call of its control surface, or an
    iteration of one of its live [spin] goroutines. *)
Inductive action : Type :=
| CallSpin
| CallStop
| CallKill
| CallOption (opts : list TaskOption)
| Select (g : nat) (o : select_outcome).

Inductive step_result : Type :=
| Next (s : sys)
| Panic
| NotEnabled.

Definition step (a : action) (s : sys) : step_result :=
  match a with
  | CallSpin => Next (Spin s)
  | CallStop => match Stop s with Some s' => Next s' | None => Panic end
  | CallKill => match Kill s with Some s' => Next s' | None => Panic end
  | CallOption opts => Next (with_tk (Option opts (tk s)) s)
  | Select g o =>
      match spinners s !! g with
      | None => NotEnabled
      | Some cf =>
          match spin_iter o cf s with
          | Continue cf' s' =>
              Next (with_spinners (<[g := cf']> (spinners s')) s')
          | Return _ s' => Next (with_spinners (delete g (spinners s')) s')
          | Blocked => NotEnabled
          end
      end
  end.

Fixpoint run (acts : list action) (s : sys) : step_result :=
  match acts with
  | [] => Next s
  | a :: acts' =>
      match step a s with
      | Next s' => run acts' s'
      | r => r
      end
  end.

(** A task fresh from the factory, with no goroutine and no event yet. *)
Definition boot (p : proc) (now : Time) (s wf m mm emitter : ref)
    (opts : list TaskOption) : sys :=
  let '(t, p') := newTask p now s wf m mm emitter opts in
  mkSys t (chans p') [] [].

End Spin.

(** ** The task collection *)
Module Collection.
Import Task.

(** A [*task] is the address of a task object in the heap of tasks; the
    table maps ids to such addresses, so a task in the table is shared
    with whoever else holds its address. *)
Definition ptr : Type := nat.
Definition task_heap : Type := gmap nat task.

Record taskCollection : Type := mkCollection {
  table : gmap Z ptr
}.

(** The package's error values. *)
Inductive error : Type :=
| ErrTaskNotFound
| ErrTaskNotStopped
| ErrTaskHasAlreadyBeenAdded
| ErrTaskDisabledOnFailures.

Definition newTaskCollection : taskCollection := mkCollection ∅.

(** [Get]: the address stored under [id], [None] for [nil]. *)
Definition Get (c : taskCollection) (id : Z) : option ptr :=
  match table c !! id with
  | Some t => Some t
  | None => None
  end.

(** [add] and [remove] return the collection and the error ([None] for a
    nil error).  Reading a field through an address that holds no task
    panics: the outer [None]. *)
Definition add (h : task_heap) (c : taskCollection) (p : ptr)
    : option (taskCollection * option error) :=
  match h !! p with
  | None => None
  | Some task =>
      match table c !! id task with
      | None => Some (mkCollection (<[id task := p]> (table c)), None)
      | Some _ => Some (c, Some ErrTaskHasAlreadyBeenAdded)
      end
  end.

Definition remove (h : task_heap) (c : taskCollection) (p : ptr)
    : option (taskCollection * option error) :=
  match h !! p with
  | None => None
  | Some task =>
      match table c !! id task with
      | Some _ =>
          if decide (state task ≠ TaskStopped) then
            Some (c, Some ErrTaskNotStopped)
          else Some (mkCollection (delete (id task) (table c)), None)
      | None => Some (c, Some ErrTaskNotFound)
      end
  end.

(** [Table]: a copy of the map. *)
Definition Table (c : taskCollection) : gmap Z ptr := table c.

End Collection.

(** ** Vocabulary of the properties *)
Module Vocabulary.
Import Go Task Spin.

(** Every outcome of [os] is an [Active] response whose fire fails: when
    [fire] returns, the last-failure time is the last-fire time recorded
    just before.  The task each fire starts from is the one the fire
    before left. *)
Fixpoint all_fail (os : list select_outcome) (t : task) : Prop :=
  match os with
  | [] => True
  | RecvResponse sr now w :: os' =>
      let t' := active_fire sr now w t in
      Schedule.State sr = Schedule.Active
      /\ lastFailureTime t' = lastFireTime t'
      /\ all_fail os' t'
  | RecvKill :: _ => False
  end.

(** The calls that close the kill signal. *)
Definition closes_kill (a : action) : bool :=
  match a with
  | CallStop | CallKill => true
  | _ => false
  end.

(** What holds of a task between two actions, from the factory on. *)
Definition consistent (s : sys) : Prop :=
  match spinners s with
  | [] => state (tk s) = TaskStopped \/ state (tk s) = TaskEnded
          \/ state (tk s) = TaskDisabled
  | [_] => (state (tk s) = TaskSpinning \/ state (tk s) = TaskDisabled)
           /\ (exists a, killChan (tk s) = Some a
                         /\ is_Some (heap s !! a))
           /\ emitted s = []
  | _ => False
  end
  /\ (emitted s = []
      \/ exists ev, emitted s = [ev] /\ state (tk s) = TaskDisabled).

(** The task is started and its kill signal has not been closed. *)
Definition armed (s : sys) : Prop :=
  state (tk s) <> TaskStopped
  /\ exists a, killChan (tk s) = Some a /\ heap s !! a = Some ChOpen.

End Vocabulary.

(** ** Concrete tasks and schedules *)
Module Scenario.
Import Go Task Spin Collection.

Definition proc0 : proc := mkProc IdGen.idCounter0 [].

(** The first three tasks of a process, created at clock readings 100,
    101 and 102; the second one has been started. *)
Definition task1 : task :=
  fst (newTask proc0 100 10%nat 11%nat 12%nat 13%nat 14%nat []).
Definition proc1 : proc :=
  snd (newTask proc0 100 10%nat 11%nat 12%nat 13%nat 14%nat []).
Definition sys1 : sys := boot proc0 100 10%nat 11%nat 12%nat 13%nat 14%nat [].

Definition sys2 : sys :=
  Spin (boot proc1 101 10%nat 11%nat 12%nat 13%nat 14%nat []).
Definition task2 : task := tk sys2.
Definition proc2 : proc :=
  snd (newTask proc1 101 10%nat 11%nat 12%nat 13%nat 14%nat []).

Definition task3 : task :=
  fst (newTask proc2 102 10%nat 11%nat 12%nat 13%nat 14%nat []).

Definition active (missed : Z) : Schedule.Response :=
  Schedule.mkResponse Schedule.Active missed.
Definition ended : Schedule.Response :=
  Schedule.mkResponse Schedule.Ended 0.
Definition errored : Schedule.Response :=
  Schedule.mkResponse Schedule.Error 0.

(** The three tasks at addresses 7, 8 and 9, and a collection to which
    the first two have been added. *)
Definition tasks1 : task_heap :=
  <[9%nat := task3]> (<[8%nat := task2]> (<[7%nat := task1]> ∅)).

Definition registry1 : taskCollection :=
  mkCollection (<[2 := 8%nat]> (<[1 := 7%nat]> ∅)).

End Scenario.

(** ** The waiter goroutine *)
Module Waiter.
Import Go Task Spin.

(** How a [waitForSchedule] goroutine ends: it has sent the response, it
    has returned on the kill signal, it is parked in its [select] with no
    case ready, or its send has hit a closed channel. *)
Inductive wait_result : Type :=
| Sent (sr : Schedule.Response)
| GaveUp
| Parked
| SendPanics.

(** [waitForSchedule].  On entering the [select] the operands are evaluated
    once: [t.killChan], [t.schResponseChan] and
    [t.schedule.Wait(t.lastFireTime)], where [Wait] is what the schedule does
    on this call.  The receive is ready when the kill signal is closed; the
    send is ready when a receiver is waiting on the response channel
    ([receiving]), and on a closed channel, where it panics; on a nil channel
    it is never ready.  With both ready [select] picks one ([pick_kill]).
    [t] is the task when the goroutine starts, [h] the channel heap when its
    [select] commits. *)
Definition waitForSchedule (Wait : Time -> Schedule.Response)
    (receiving pick_kill : bool) (t : task) (h : chan_heap) : wait_result :=
  let k := killChan t in
  let c := schResponseChan t in
  let sr := Wait (lastFireTime t) in
  let send :=
    match c with
    | None => None
    | Some a =>
        match h !! a with
        | Some ChOpen => if receiving then Some (Sent sr) else None
        | Some ChClosed => Some SendPanics
        | None => None
        end
    end in
  match recv_ready k h, send with
  | true, Some r => if pick_kill then GaveUp else r
  | true, None => GaveUp
  | false, Some r => r
  | false, None => Parked
  end.

End Waiter.

(** ** Sequences of collection calls *)
Module CollectionOps.
Import Task Collection.

Inductive call : Type :=
| CallAdd (p : ptr)
| CallRemove (p : ptr).

(** The collection after a call, whatever error it returned; [None] when
    the call panics. *)
Definition after_call (h : task_heap) (c : taskCollection) (o : call)
    : option taskCollection :=
  match o with
  | CallAdd p => fst <$> add h c p
  | CallRemove p => fst <$> remove h c p
  end.

Fixpoint after_calls (h : task_heap) (os : list call) (c : taskCollection)
    : option taskCollection :=
  match os with
  | [] => Some c
  | o :: os' =>
      match after_call h c o with
      | Some c' => after_calls h os' c'
      | None => None
      end
  end.

End CollectionOps.

(** ** More vocabulary *)
Module Vocabulary2.
Import Go Task Spin Collection.

(** Every outcome of [os] is an [Active] response whose fire does not
    fail. *)
Fixpoint all_succeed (os : list select_outcome) (t : task) : Prop :=
  match os with
  | [] => True
  | RecvResponse sr now w :: os' =>
      let t' := active_fire sr now w t in
      Schedule.State sr = Schedule.Active
      /\ lastFailureTime t' <> lastFireTime t'
      /\ all_succeed os' t'
  | RecvKill :: _ => False
  end.

(** The missed ticks reported by the responses of [os]. *)
Fixpoint missed_total (os : list select_outcome) : Z :=
  match os with
  | [] => 0
  | RecvResponse sr _ _ :: os' => Schedule.Missed sr + missed_total os'
  | RecvKill :: os' => missed_total os'
  end.

(** The clock reading of the last response of [os], [d] if there is none. *)
Fixpoint last_now (d : Time) (os : list select_outcome) : Time :=
  match os with
  | [] => d
  | RecvResponse _ now _ :: os' => last_now now os'
  | RecvKill :: os' => last_now d os'
  end.

(** The response channel is allocated and open, and is not the kill
    signal, which is allocated too when there is one. *)
Definition wired (s : sys) : Prop :=
  exists a,
    schResponseChan (tk s) = Some a /\ heap s !! a = Some ChOpen
    /\ forall b, killChan (tk s) = Some b ->
         (a < b)%nat /\ (b < length (heap s))%nat.

(** [t'] has the identity, the configuration and the handles of [t]: all
    fields but the state, the counters, the last fire time and the failure
    fields. *)
Definition same_config (t t' : task) : Prop :=
  id t' = id t /\ name t' = name t
  /\ schResponseChan t' = schResponseChan t /\ killChan t' = killChan t
  /\ schedule t' = schedule t /\ workflow t' = workflow t
  /\ creationTime t' = creationTime t /\ manager t' = manager t
  /\ metricsManager t' = metricsManager t
  /\ deadlineDuration t' = deadlineDuration t
  /\ stopOnFailure t' = stopOnFailure t
  /\ eventEmitter t' = eventEmitter t.

(** Every key of the table is the id of the task stored under it. *)
Definition keyed (h : task_heap) (c : taskCollection) : Prop :=
  forall i p, table c !! i = Some p ->
    exists t, h !! p = Some t /\ id t = i.

End Vocabulary2.

(** * Properties *)

(** ** The identifier generator *)
Module IdGenFacts.
Import Go IdGen.

Lemma wrap_range z : 0 <= wrap z < uint_mod.
Proof. unfold wrap. apply Z.mod_pos_bound. reflexivity. Qed.

Lemma wrap_small z : 0 <= z < uint_mod -> wrap z = z.
Proof. intros H. unfold wrap. apply Z.mod_small. exact H. Qed.

Lemma after_calls_succ n c :
  after_calls (N.succ n) c = snd (id (after_calls n c)).
Proof. unfold after_calls. apply N.iter_succ. Qed.

(** [n] calls move a counter [c] to [c + n] modulo 2^64. *)
Lemma after_calls_spec n c :
  0 <= c < uint_mod -> after_calls n c = wrap (c + Z.of_N n).
Proof.
  intros Hc. induction n as [|n IH] using N.peano_ind.
  - unfold after_calls. simpl. rewrite Z.add_0_r.
    symmetry. apply wrap_small. exact Hc.
  - rewrite after_calls_succ, IH. unfold id, wrap. simpl snd.
    rewrite Z.add_mod_idemp_l by discriminate.
    f_equal. lia.
Qed.

Lemma nth_id_spec n : (1 <= n)%N -> nth_id n = wrap (Z.of_N n).
Proof.
  intros Hn. unfold nth_id.
  rewrite after_calls_spec by (unfold idCounter0; split; [lia|reflexivity]).
  unfold id, idCounter0, wrap. simpl fst.
  rewrite Z.add_mod_idemp_l by discriminate.
  f_equal. lia.
Qed.

Lemma nth_id_below_wrap n :
  (1 <= n)%N -> Z.of_N n < uint_mod -> nth_id n = Z.of_N n.
Proof.
  intros H1 H2. rewrite nth_id_spec by exact H1.
  apply wrap_small. lia.
Qed.

(** C10, as the code has it: while fewer than 2^64 ids have been handed
    out since the process started, the [n]-th call of [id] returns [n]; so
    no id is 0 and each id is strictly greater than every earlier one. *)
Theorem id_increasing_below_wrap (m n : N) :
  (1 <= m)%N -> (m < n)%N -> Z.of_N n < uint_mod ->
  nth_id n = Z.of_N n /\ nth_id m <> 0 /\ nth_id n <> 0
  /\ nth_id m < nth_id n.
Proof.
  intros H1 H2 H3.
  rewrite (nth_id_below_wrap m) by lia.
  rewrite (nth_id_below_wrap n) by lia.
  lia.
Qed.

Lemma id_increasing_below_wrap_witness :
  nth_id 2 = 2 /\ nth_id 1 <> 0 /\ nth_id 2 <> 0 /\ nth_id 1 < nth_id 2.
Proof.
  apply (id_increasing_below_wrap 1 2); [lia | lia | reflexivity].
Defined.

(** C10 as stated fails at the 2^64-th call: the counter wraps, the call
    returns 0, which is not greater than the id returned just before. *)
Lemma id_wraps_to_zero :
  nth_id (2 ^ 64) = 0
  /\ ~ (nth_id (2 ^ 64 - 1) < nth_id (2 ^ 64)).
Proof.
  rewrite (nth_id_spec (2 ^ 64)) by (vm_compute; discriminate).
  rewrite (nth_id_spec (2 ^ 64 - 1)) by (vm_compute; discriminate).
  vm_compute. split; [reflexivity | discriminate].
Qed.

End IdGenFacts.

(** ** The factory *)
Module TaskFacts.
Import Go Task.

Lemma apply_opt_frame t o :
  state (apply_opt t o) = state t
  /\ hitCount (apply_opt t o) = hitCount t
  /\ missedIntervals (apply_opt t o) = missedIntervals t
  /\ failedRuns (apply_opt t o) = failedRuns t
  /\ id (apply_opt t o) = id t
  /\ killChan (apply_opt t o) = killChan t
  /\ lastFireTime (apply_opt t o) = lastFireTime t.
Proof. destruct o; repeat split. Qed.

Lemma Option_frame opts t :
  state (Option opts t) = state t
  /\ hitCount (Option opts t) = hitCount t
  /\ missedIntervals (Option opts t) = missedIntervals t
  /\ failedRuns (Option opts t) = failedRuns t
  /\ id (Option opts t) = id t
  /\ killChan (Option opts t) = killChan t
  /\ lastFireTime (Option opts t) = lastFireTime t.
Proof.
  unfold Option. revert t. induction opts as [|o opts IH]; intros t.
  - repeat split.
  - simpl. destruct (IH (apply_opt t o)) as (-> & -> & -> & -> & -> & -> & ->).
    apply apply_opt_frame.
Qed.

Lemma set_state_frame v t :
  state (set_state v t) = v
  /\ id (set_state v t) = id t
  /\ lastFailureMessage (set_state v t) = lastFailureMessage t
  /\ hitCount (set_state v t) = hitCount t
  /\ missedIntervals (set_state v t) = missedIntervals t
  /\ lastFireTime (set_state v t) = lastFireTime t
  /\ killChan (set_state v t) = killChan t.
Proof. repeat split. Qed.

(** C8: a task returned by [newTask] is [TaskStopped] with hit, missed and
    failed counts 0, whatever the options; it is the struct literal with
    the options applied in order, and in the literal the deadline is
    5 seconds and the stop-on-failure threshold is 3. *)
Theorem newTask_defaults (p : proc) (now : Time) (s wf m mm emitter : ref)
    (opts : list TaskOption) :
  let t := fst (newTask p now s wf m mm emitter opts) in
  state t = TaskStopped /\ hitCount t = 0 /\ missedIntervals t = 0
  /\ failedRuns t = 0
  /\ exists t0,
       t = Option opts t0
       /\ fst (newTask p now s wf m mm emitter []) = t0
       /\ deadlineDuration t0 = 5 * Second
       /\ deadlineDuration t0 = 5000000000
       /\ DefaultDeadlineDuration = 5 * Second
       /\ stopOnFailure t0 = 3
       /\ state t0 = TaskStopped /\ hitCount t0 = 0
       /\ missedIntervals t0 = 0 /\ failedRuns t0 = 0.
Proof.
  unfold newTask. simpl.
  set (t0 := newTask_literal _ _ _ _ _ _ _ _).
  destruct (Option_frame opts t0) as (Hs & Hh & Hm & Hf & _).
  unfold Option in *. rewrite Hs, Hh, Hm, Hf.
  repeat split. exists t0. repeat split.
Qed.

End TaskFacts.

(** ** The task collection *)
Module CollectionFacts.
Import Task Collection.

Lemma Get_lookup c i : Get c i = table c !! i.
Proof. unfold Get. destruct (table c !! i); reflexivity. Qed.

(** C5: [remove] of a task whose id is not in the table returns
    [ErrTaskNotFound]; of a task whose id is in the table and whose state
    is not [TaskStopped], [ErrTaskNotStopped], and the task stays
    registered; it returns no error, and deletes the entry, exactly when
    the id is in the table and the state is [TaskStopped].  Whenever an
    error is returned the collection is the one passed in. *)
Theorem remove_spec (h : task_heap) (c : taskCollection) (p : ptr)
    (t : task) :
  h !! p = Some t ->
  (table c !! id t = None ->
     remove h c p = Some (c, Some ErrTaskNotFound))
  /\ (forall q, table c !! id t = Some q -> state t <> TaskStopped ->
        remove h c p = Some (c, Some ErrTaskNotStopped)
        /\ Get c (id t) = Some q)
  /\ (forall c', remove h c p = Some (c', None) <->
        is_Some (table c !! id t) /\ state t = TaskStopped
        /\ c' = mkCollection (delete (id t) (table c)))
  /\ (forall c', remove h c p = Some (c', None) ->
        Get c' (id t) = None
        /\ forall i, i <> id t -> Get c' i = Get c i)
  /\ (forall c' e, remove h c p = Some (c', Some e) ->
        c' = c
        /\ (e = ErrTaskNotFound /\ table c !! id t = None
            \/ e = ErrTaskNotStopped /\ is_Some (table c !! id t)
               /\ state t <> TaskStopped)).
Proof.
  intros Hp. unfold remove. rewrite Hp.
  destruct (table c !! id t) as [q|] eqn:Hq.
  - destruct (decide (state t ≠ TaskStopped)) as [Hs|Hs].
    + split; [discriminate|].
      split; [intros q' Hq' _; rewrite Get_lookup; split; congruence|].
      split; [intros c'; split; [discriminate | tauto]|].
      split; [discriminate|].
      intros c' e H. injection H as <- <-. split; [reflexivity|].
      right. split; [reflexivity|]. split; [eauto | exact Hs].
    + assert (state t = TaskStopped) as Hst.
      { destruct (decide (state t = TaskStopped)); [assumption|contradiction]. }
      split; [discriminate|].
      split; [intros q' _ Hn; contradiction|].
      split.
      { intros c'. split.
        - intros H. injection H as <-. split; [eauto|]. split; [exact Hst|reflexivity].
        - intros (_ & _ & ->). reflexivity. }
      split.
      { intros c' H. injection H as <-. rewrite Get_lookup. simpl.
        split; [apply lookup_delete_eq|].
        intros i Hi. rewrite !Get_lookup. simpl.
        rewrite lookup_delete_ne by congruence. reflexivity. }
      discriminate.
  - split; [reflexivity|].
    split; [discriminate|].
    split.
    { intros c'. split; [discriminate|]. intros ([? ?] & _). discriminate. }
    split; [discriminate|].
    intros c' e H. injection H as <- <-. split; [reflexivity|].
    left. split; reflexivity.
Qed.

Lemma remove_spec_witness :
  Scenario.tasks1 !! 8%nat = Some Scenario.task2
  /\ remove Scenario.tasks1 Scenario.registry1 8%nat
     = Some (Scenario.registry1, Some ErrTaskNotStopped)
  /\ Get Scenario.registry1 (id Scenario.task2) = Some 8%nat.
Proof.
  assert (Scenario.tasks1 !! 8%nat = Some Scenario.task2) as H
    by (vm_compute; reflexivity).
  split; [exact H|].
  destruct (remove_spec Scenario.tasks1 Scenario.registry1 8%nat
              Scenario.task2 H) as (_ & H2 & _).
  apply (H2 8%nat); [vm_compute; reflexivity | vm_compute; discriminate].
Defined.

(** C6: [add] of a task whose id is not a key of the table returns no
    error and stores the task's address under its id; when the id is a
    key already it returns [ErrTaskHasAlreadyBeenAdded] and the collection
    passed in, so [Get] still returns the address stored first, and the
    heap of tasks is only read.  In particular a second [add] under the
    same id fails and leaves the first task retrievable. *)
Theorem add_spec (h : task_heap) (c : taskCollection) (p : ptr)
    (t : task) :
  h !! p = Some t ->
  (table c !! id t = None ->
     exists c', add h c p = Some (c', None)
       /\ table c' = <[id t := p]> (table c)
       /\ Get c' (id t) = Some p
       /\ (forall i, i <> id t -> Get c' i = Get c i)
       /\ forall p2 t2, h !! p2 = Some t2 -> id t2 = id t ->
            add h c' p2 = Some (c', Some ErrTaskHasAlreadyBeenAdded)
            /\ Get c' (id t) = Some p /\ h !! p = Some t)
  /\ (forall q, table c !! id t = Some q ->
        add h c p = Some (c, Some ErrTaskHasAlreadyBeenAdded)
        /\ Get c (id t) = Some q)
  /\ (forall c', add h c p = Some (c', None) <->
        table c !! id t = None
        /\ c' = mkCollection (<[id t := p]> (table c))).
Proof.
  intros Hp. unfold add. rewrite Hp.
  destruct (table c !! id t) as [q|] eqn:Hq.
  - split; [discriminate|].
    split.
    { intros q' Hq'. split; [reflexivity|]. rewrite Get_lookup. congruence. }
    intros c'. split; [discriminate|]. intros (H & _). discriminate H.
  - split.
    { intros _. eexists. split; [reflexivity|]. simpl.
      split; [reflexivity|]. rewrite Get_lookup. simpl.
      split; [apply lookup_insert_eq|]. split.
      - intros i Hi. rewrite !Get_lookup. simpl.
        rewrite lookup_insert_ne by congruence. reflexivity.
      - intros p2 t2 Hp2 Hid. rewrite Hp2, Hid, lookup_insert_eq.
        split; [reflexivity|]. split; reflexivity. }
    split; [discriminate|].
    intros c'. split.
    + intros H. injection H as <-. split; reflexivity.
    + intros (_ & ->). reflexivity.
Qed.

Lemma add_spec_witness :
  Scenario.tasks1 !! 9%nat = Some Scenario.task3
  /\ exists c',
       add Scenario.tasks1 Scenario.registry1 9%nat = Some (c', None)
       /\ Get c' 3 = Some 9%nat
       /\ add Scenario.tasks1 c' 9%nat
          = Some (c', Some ErrTaskHasAlreadyBeenAdded).
Proof.
  assert (Scenario.tasks1 !! 9%nat = Some Scenario.task3) as H
    by (vm_compute; reflexivity).
  split; [exact H|].
  destruct (add_spec Scenario.tasks1 Scenario.registry1 9%nat
              Scenario.task3 H) as (H1 & _).
  destruct H1 as (c' & Hadd & _ & Hget & _ & Hagain);
    [vm_compute; reflexivity|].
  exists c'. split; [exact Hadd|]. split; [exact Hget|].
  apply (Hagain 9%nat Scenario.task3 H eq_refl).
Defined.

End CollectionFacts.

(** ** The spin loop *)
Module SpinFacts.
Import Go Task scheduler_event Spin Vocabulary.
Import IdGenFacts TaskFacts.

Lemma active_fire_fields sr now w t :
  id (active_fire sr now w t) = id t
  /\ stopOnFailure (active_fire sr now w t) = stopOnFailure t
  /\ killChan (active_fire sr now w t) = killChan t
  /\ state (active_fire sr now w t) = TaskSpinning
  /\ hitCount (active_fire sr now w t) = wrap (hitCount t + 1)
  /\ missedIntervals (active_fire sr now w t)
     = wrap (missedIntervals t + Schedule.Missed sr)
  /\ lastFireTime (active_fire sr now w t) = now.
Proof. repeat split. Qed.

(** The workflow runs on the task in state [TaskFiring], after the
    bookkeeping. *)
Lemma active_fire_unfold sr now w t :
  active_fire sr now w t
  = set_state TaskSpinning
      (workflow_Start w
         (set_state TaskFiring
            (set_hitCount (wrap (hitCount t + 1))
               (set_lastFireTime now
                  (set_missedIntervals
                     (wrap (missedIntervals t + Schedule.Missed sr)) t))))).
Proof. reflexivity. Qed.

(** From here on [active_fire] is used through the two lemmas above. *)
#[local] Arguments active_fire : simpl never.
#[local] Opaque active_fire.

(** The [Active] case of one iteration, with its two ways out. *)
Lemma spin_iter_active sr now w cf s :
  Schedule.State sr = Schedule.Active ->
  spin_iter (RecvResponse sr now w) cf s =
    let t := active_fire sr now w (tk s) in
    let cf :=
      if decide (lastFailureTime t = lastFireTime t)
      then wrap (cf + 1) else 0 in
    if decide (stopOnFailure t <= cf) then
      let t' := set_state TaskDisabled t in
      let event :=
        mkTaskDisabledEvent (id t')
          (Sprintf_disabled (lastFailureMessage t')) in
      Return ExitOnFailures (Emit event (with_tk t' s))
    else Continue cf (with_tk t s).
Proof. intros H. unfold spin_iter. rewrite H. reflexivity. Qed.

Lemma spin_iter_active_fails sr now w cf s :
  Schedule.State sr = Schedule.Active ->
  lastFailureTime (active_fire sr now w (tk s))
    = lastFireTime (active_fire sr now w (tk s)) ->
  0 <= cf -> cf + 1 < stopOnFailure (tk s) ->
  stopOnFailure (tk s) < uint_mod ->
  spin_iter (RecvResponse sr now w) cf s
    = Continue (cf + 1) (with_tk (active_fire sr now w (tk s)) s).
Proof.
  intros Ha Hf H0 Hlt Hk. rewrite spin_iter_active by exact Ha.
  cbv zeta.
  destruct (decide (lastFailureTime (active_fire sr now w (tk s))
                    = lastFireTime (active_fire sr now w (tk s))))
    as [_|Hn]; [|contradiction].
  rewrite wrap_small by lia.
  destruct (active_fire_fields sr now w (tk s)) as (_ & -> & _).
  rewrite decide_False by lia. reflexivity.
Qed.

(** The failure branch, with the event's fields read off the task. *)
Lemma disabled_event_fields sr now w s :
  Emit (mkTaskDisabledEvent
          (id (set_state TaskDisabled (active_fire sr now w (tk s))))
          (Sprintf_disabled
             (lastFailureMessage
                (set_state TaskDisabled (active_fire sr now w (tk s))))))
    (with_tk (set_state TaskDisabled (active_fire sr now w (tk s))) s)
  = Emit (mkTaskDisabledEvent (id (tk s))
            (Sprintf_disabled
               (lastFailureMessage (active_fire sr now w (tk s)))))
      (with_tk (set_state TaskDisabled (active_fire sr now w (tk s))) s).
Proof.
  destruct (set_state_frame TaskDisabled (active_fire sr now w (tk s)))
    as (_ & -> & -> & _).
  destruct (active_fire_fields sr now w (tk s)) as (-> & _).
  reflexivity.
Qed.

Lemma spin_iter_active_fails_last sr now w cf s :
  Schedule.State sr = Schedule.Active ->
  lastFailureTime (active_fire sr now w (tk s))
    = lastFireTime (active_fire sr now w (tk s)) ->
  0 <= cf -> cf + 1 = stopOnFailure (tk s) ->
  stopOnFailure (tk s) < uint_mod ->
  spin_iter (RecvResponse sr now w) cf s
    = Return ExitOnFailures
        (Emit (mkTaskDisabledEvent (id (tk s))
                 (Sprintf_disabled
                    (lastFailureMessage (active_fire sr now w (tk s)))))
           (with_tk (set_state TaskDisabled (active_fire sr now w (tk s)))
              s)).
Proof.
  intros Ha Hf H0 Hlt Hk. rewrite spin_iter_active by exact Ha.
  cbv zeta.
  destruct (decide (lastFailureTime (active_fire sr now w (tk s))
                    = lastFireTime (active_fire sr now w (tk s))))
    as [_|Hn]; [|contradiction].
  rewrite wrap_small by lia.
  rewrite disabled_event_fields.
  destruct (active_fire_fields sr now w (tk s)) as (_ & -> & _).
  rewrite decide_True by lia. reflexivity.
Qed.

Lemma spin_iter_active_succeeds sr now w cf s :
  Schedule.State sr = Schedule.Active ->
  lastFailureTime (active_fire sr now w (tk s))
    <> lastFireTime (active_fire sr now w (tk s)) ->
  1 <= stopOnFailure (tk s) ->
  spin_iter (RecvResponse sr now w) cf s
    = Continue 0 (with_tk (active_fire sr now w (tk s)) s).
Proof.
  intros Ha Hf Hk. rewrite spin_iter_active by exact Ha.
  cbv zeta.
  destruct (decide (lastFailureTime (active_fire sr now w (tk s))
                    = lastFireTime (active_fire sr now w (tk s))))
    as [Hn|_]; [contradiction|].
  destruct (active_fire_fields sr now w (tk s)) as (_ & -> & _).
  rewrite decide_False by lia. reflexivity.
Qed.

Lemma spin_from_cons o os cf s :
  spin_from (o :: os) cf s =
    match spin_iter o cf s with
    | Continue cf' s' => spin_from os cf' s'
    | r => r
    end.
Proof. reflexivity. Qed.

Lemma spin_from_app os1 os2 cf s :
  spin_from (os1 ++ os2) cf s =
    match spin_from os1 cf s with
    | Continue cf' s' => spin_from os2 cf' s'
    | r => r
    end.
Proof.
  revert cf s. induction os1 as [|o os1 IH]; intros cf s; simpl.
  - reflexivity.
  - destruct (spin_iter o cf s); try reflexivity. apply IH.
Qed.

(** Failing fires below the threshold keep the loop going and count. *)
Lemma spin_from_all_fail os : forall cf s,
  all_fail os (tk s) -> 0 <= cf ->
  cf + Z.of_nat (length os) < stopOnFailure (tk s) ->
  stopOnFailure (tk s) < uint_mod ->
  exists s',
    spin_from os cf s = Continue (cf + Z.of_nat (length os)) s'
    /\ emitted s' = emitted s /\ heap s' = heap s
    /\ spinners s' = spinners s
    /\ id (tk s') = id (tk s)
    /\ stopOnFailure (tk s') = stopOnFailure (tk s)
    /\ (os <> [] -> state (tk s') = TaskSpinning)
    /\ forall os2, all_fail (os ++ os2) (tk s) -> all_fail os2 (tk s').
Proof.
  induction os as [|o os IH]; intros cf s Hall Hcf Hlt Hk.
  - exists s. simpl. rewrite Z.add_0_r.
    repeat split; try reflexivity; [congruence | auto].
  - destruct o as [sr now w|]; [|destruct Hall].
    destruct Hall as (Ha & Hf & Hall).
    rewrite length_cons, Nat2Z.inj_succ in Hlt.
    rewrite spin_from_cons.
    rewrite spin_iter_active_fails by (try assumption; lia).
    destruct (active_fire_fields sr now w (tk s))
      as (Hid0 & Hstop0 & _ & Hst0 & _).
    destruct (IH (cf + 1) (with_tk (active_fire sr now w (tk s)) s))
      as (s' & Hrun & He & Hh & Hsp & Hid & Hstop & Hst & Hrest).
    + exact Hall.
    + lia.
    + cbn [tk with_tk]. rewrite Hstop0. lia.
    + cbn [tk with_tk]. rewrite Hstop0. exact Hk.
    + cbn [tk with_tk emitted heap spinners] in He, Hh, Hsp, Hid, Hstop, Hrest.
      rewrite Hid0 in Hid. rewrite Hstop0 in Hstop.
      exists s'. rewrite Hrun, length_cons, Nat2Z.inj_succ.
      split; [f_equal; lia|].
      split; [exact He|]. split; [exact Hh|]. split; [exact Hsp|].
      split; [exact Hid|]. split; [exact Hstop|].
      split.
      * intros _. destruct os as [|o' os'].
        -- simpl in Hrun. injection Hrun as _ <-. exact Hst0.
        -- apply Hst. discriminate.
      * intros os2 (_ & _ & H2). apply Hrest. exact H2.
Qed.

Lemma all_fail_app_l os1 : forall os2 t,
  all_fail (os1 ++ os2) t -> all_fail os1 t.
Proof.
  induction os1 as [|o os1 IH]; intros os2 t H; simpl in *.
  - exact I.
  - destruct o as [sr now w|]; [|exact H].
    destruct H as (Ha & Hf & H). eauto.
Qed.

(** Events are emitted by the failure branch only. *)

Lemma spin_iter_emitted o cf s :
  match spin_iter o cf s with
  | Return ExitOnFailures s' =>
      emitted s' =
        emitted s ++ [mkTaskDisabledEvent (id (tk s))
                        (Sprintf_disabled (lastFailureMessage (tk s')))]
      /\ state (tk s') = TaskDisabled
  | Return _ s' => emitted s' = emitted s
  | Continue _ s' => emitted s' = emitted s /\ id (tk s') = id (tk s)
  | Blocked => True
  end.
Proof.
  destruct o as [sr now w|].
  - destruct (Schedule.State sr) eqn:Hsr.
    + rewrite spin_iter_active by exact Hsr. cbv zeta.
      destruct (decide _).
      * rewrite disabled_event_fields. cbn [emitted Emit with_tk tk].
        destruct (set_state_frame TaskDisabled (active_fire sr now w (tk s)))
          as (-> & _ & -> & _).
        split; reflexivity.
      * cbn [emitted with_tk tk].
        destruct (active_fire_fields sr now w (tk s)) as (-> & _).
        split; reflexivity.
    + unfold spin_iter. rewrite Hsr. reflexivity.
    + unfold spin_iter. rewrite Hsr. reflexivity.
  - unfold spin_iter. destruct (recv_ready _ _); [reflexivity | exact I].
Qed.

Lemma spin_from_emitted os : forall cf s,
  match spin_from os cf s with
  | Return ExitOnFailures s' =>
      emitted s' =
        emitted s ++ [mkTaskDisabledEvent (id (tk s))
                        (Sprintf_disabled (lastFailureMessage (tk s')))]
      /\ state (tk s') = TaskDisabled
  | Return _ s' => emitted s' = emitted s
  | Continue _ s' => emitted s' = emitted s /\ id (tk s') = id (tk s)
  | Blocked => True
  end.
Proof.
  induction os as [|o os IH]; intros cf s.
  - simpl. split; reflexivity.
  - rewrite spin_from_cons.
    pose proof (spin_iter_emitted o cf s) as Ho.
    destruct (spin_iter o cf s) as [cf1 s1|e s1|]; [|exact Ho|exact I].
    destruct Ho as (He1 & Hid1).
    specialize (IH cf1 s1).
    destruct (spin_from os cf1 s1) as [cf2 s2|e s2|]; [| |exact I].
    + destruct IH as (-> & ->). split; assumption.
    + destruct e; rewrite <- ?He1, <- ?Hid1; exact IH.
Qed.

(** C1: with threshold [k >= 1], from a point where the loop's counter is 0
    (the start of [spin], or after a fire that did not fail), [k] fires in
    a row that fail (the last-failure time equals the last-fire time just
    recorded) make [spin] return from its failure branch at the [k]-th of
    them, the state being [TaskDisabled] and exactly one event added to the
    emitted ones: its [TaskID] is the task's id and its [Why] is the text
    "Task disabled with error: " followed by the task's last failure
    message, which is the message the workflow run of the [k]-th fire
    left.  After fewer than [k] of them the loop is still running and has
    emitted nothing, and a fire that does not fail puts the
    consecutive-failure counter back to 0. *)
Theorem spin_disables_on_kth_failure (s0 : sys) (cf0 : Z)
    (pre : list select_outcome) (s : sys) (os : list select_outcome)
    (k : Z) :
  spin_from pre cf0 s0 = Continue 0 s ->
  stopOnFailure (tk s) = k -> 1 <= k < uint_mod ->
  Z.of_nat (length os) = k -> all_fail os (tk s) ->
  (exists s' ev,
     spin_from (pre ++ os) cf0 s0 = Return ExitOnFailures s'
     /\ state (tk s') = TaskDisabled
     /\ emitted s' = emitted s0 ++ [ev]
     /\ TaskID ev = id (tk s0)
     /\ Why ev = "Task disabled with error: " +:+ lastFailureMessage (tk s')
     /\ exists os0 sr now w s1,
          os = os0 ++ [RecvResponse sr now w]
          /\ spin_from (pre ++ os0) cf0 s0
             = Continue (Z.of_nat (length os0)) s1
          /\ lastFailureMessage (tk s')
             = rep_lastFailureMessage
                 (w (set_state TaskFiring
                       (set_hitCount (wrap (hitCount (tk s1) + 1))
                          (set_lastFireTime now
                             (set_missedIntervals
                                (wrap (missedIntervals (tk s1)
                                       + Schedule.Missed sr))
                                (tk s1)))))))
  /\ (forall n, (n < length os)%nat ->
        exists s1,
          spin_from (pre ++ take n os) cf0 s0 = Continue (Z.of_nat n) s1
          /\ emitted s1 = emitted s0
          /\ (n <> 0%nat -> state (tk s1) = TaskSpinning)
          /\ forall sr now w,
               Schedule.State sr = Schedule.Active ->
               lastFailureTime (active_fire sr now w (tk s1))
                 <> lastFireTime (active_fire sr now w (tk s1)) ->
               spin_from ((pre ++ take n os) ++ [RecvResponse sr now w])
                 cf0 s0
                 = Continue 0 (with_tk (active_fire sr now w (tk s1)) s1)).
Proof.
  intros Hpre Hk Hrange Hlen Hall. subst k.
  pose proof (spin_from_emitted pre cf0 s0) as Hpe.
  rewrite Hpre in Hpe. destruct Hpe as (Hem0 & Hid0).
  split.
  - destruct (exists_last (l := os)) as (os0 & o & ->).
    { intros ->. simpl in Hlen. lia. }
    rewrite length_app in Hlen. simpl in Hlen.
    destruct (spin_from_all_fail os0 0 s)
      as (s1 & Hrun & He & _ & _ & Hid & Hstop & _ & Hrest).
    + eapply all_fail_app_l. exact Hall.
    + lia.
    + lia.
    + lia.
    + specialize (Hrest [o] Hall).
      destruct o as [sr now w|]; [|destruct Hrest].
      destruct Hrest as (Ha & Hf & _).
      exists (Emit (mkTaskDisabledEvent (id (tk s1))
                      (Sprintf_disabled
                         (lastFailureMessage (active_fire sr now w (tk s1)))))
                (with_tk (set_state TaskDisabled
                            (active_fire sr now w (tk s1))) s1)).
      exists (mkTaskDisabledEvent (id (tk s1))
                (Sprintf_disabled
                   (lastFailureMessage (active_fire sr now w (tk s1))))).
      split.
      { rewrite spin_from_app, Hpre, spin_from_app, Hrun, spin_from_cons.
        rewrite spin_iter_active_fails_last
          by (try assumption; rewrite ?Hstop; lia).
        reflexivity. }
      cbn [tk emitted Emit with_tk TaskID Why].
      destruct (set_state_frame TaskDisabled (active_fire sr now w (tk s1)))
        as (-> & _ & -> & _).
      split; [reflexivity|].
      split; [rewrite He, Hem0; reflexivity|].
      split; [rewrite Hid, Hid0; reflexivity|].
      split; [reflexivity|].
      exists os0, sr, now, w, s1.
      split; [reflexivity|].
      split; [rewrite spin_from_app, Hpre; exact Hrun|].
      rewrite active_fire_unfold. reflexivity.
  - intros n Hn.
    assert (all_fail (take n os) (tk s)) as Htake.
    { apply all_fail_app_l with (os2 := drop n os).
      rewrite take_drop. exact Hall. }
    assert (length (take n os) = n) as Hlen_n.
    { rewrite length_take. lia. }
    destruct (spin_from_all_fail (take n os) 0 s)
      as (s1 & Hrun & He & _ & _ & _ & Hstop & Hst & _).
    + exact Htake.
    + lia.
    + rewrite Hlen_n. lia.
    + lia.
    + rewrite Hlen_n in Hrun. simpl in Hrun.
      exists s1. rewrite spin_from_app, Hpre.
      split; [exact Hrun|]. split; [congruence|]. split.
      * intros Hn0. apply Hst. intros Hnil.
        rewrite Hnil in Hlen_n. simpl in Hlen_n. congruence.
      * intros sr now w Ha Hf.
        rewrite !spin_from_app, Hpre, Hrun, spin_from_cons.
        rewrite spin_iter_active_succeeds
          by (try assumption; rewrite Hstop; lia).
        reflexivity.
Qed.

Lemma spin_disables_on_kth_failure_witness :
  let pre := [RecvResponse (Scenario.active 0) 150 (run_fails "early");
              RecvResponse (Scenario.active 0) 160 run_succeeds] in
  let os := [RecvResponse (Scenario.active 0) 200 (run_fails "boom");
             RecvResponse (Scenario.active 0) 201 (run_fails "boom");
             RecvResponse (Scenario.active 1) 202 (run_fails "bang")] in
  exists s,
    spin_from pre 0 Scenario.sys2 = Continue 0 s
    /\ stopOnFailure (tk s) = 3
    /\ all_fail os (tk s)
    /\ exists s',
         spin_from (pre ++ os) 0 Scenario.sys2 = Return ExitOnFailures s'
         /\ state (tk s') = TaskDisabled
         /\ emitted s'
            = [mkTaskDisabledEvent 2 "Task disabled with error: bang"].
Proof.
  intros pre os. eexists.
  split; [reflexivity|]. split; [reflexivity|].
  match goal with |- ?A /\ _ => assert A as Hall end.
  { vm_compute. repeat split. }
  split; [exact Hall|].
  destruct (spin_disables_on_kth_failure Scenario.sys2 0 pre _ os 3 eq_refl)
    as ((s' & ev & Hrun & Hst & Hem & Hid & Hwhy & _) & _).
  - reflexivity.
  - vm_compute. split; [discriminate | reflexivity].
  - reflexivity.
  - exact Hall.
  - exists s'. split; [exact Hrun|]. split; [exact Hst|].
    rewrite Hem. destruct ev as [i y]. cbn [TaskID Why] in Hid, Hwhy.
    rewrite Hid, Hwhy.
    assert (lastFailureMessage (tk s') = "bang") as ->.
    { vm_compute in Hrun. injection Hrun as <-. reflexivity. }
    reflexivity.
Defined.

(** C9: with the threshold set to 0, the first [Active] response makes
    [spin] return from its failure branch, the state being
    [TaskDisabled] and an event emitted, whatever the workflow run did: a
    run that did not fail resets the counter to 0, and 0 >= 0. *)
Theorem threshold_zero_disables (s : sys) (cf : Z)
    (sr : Schedule.Response) (now : Time) (w : workflow_run) :
  Schedule.State sr = Schedule.Active ->
  let s0 := with_tk (SetStopOnFailure 0 (tk s)) s in
  let t := active_fire sr now w (tk s0) in
  GetStopOnFailure (tk s0) = 0
  /\ spin_iter (RecvResponse sr now w) cf s0
     = Return ExitOnFailures
         (Emit (mkTaskDisabledEvent (id (tk s))
                  (Sprintf_disabled (lastFailureMessage t)))
            (with_tk (set_state TaskDisabled t) s0))
  /\ (exists s',
        spin [RecvResponse sr now w] s0 = Return ExitOnFailures s'
        /\ state (tk s') = TaskDisabled
        /\ emitted s' =
             emitted s ++
               [mkTaskDisabledEvent (id (tk s))
                  (Sprintf_disabled (lastFailureMessage (tk s')))])
  /\ (lastFailureTime t <> lastFireTime t ->
        (if decide (lastFailureTime t = lastFireTime t)
         then wrap (cf + 1) else 0) = 0).
Proof.
  intros Ha s0 t.
  assert (id (tk s0) = id (tk s)) as Hid0 by reflexivity.
  assert (stopOnFailure t = 0) as Hk0.
  { unfold t. destruct (active_fire_fields sr now w (tk s0)) as (_ & -> & _).
    reflexivity. }
  assert (forall c, spin_iter (RecvResponse sr now w) c s0
     = Return ExitOnFailures
         (Emit (mkTaskDisabledEvent (id (tk s))
                  (Sprintf_disabled (lastFailureMessage t)))
            (with_tk (set_state TaskDisabled t) s0))) as Hiter.
  { intros c. rewrite spin_iter_active by exact Ha. cbv zeta.
    fold t. rewrite Hk0. rewrite decide_True.
    - unfold t. rewrite disabled_event_fields, Hid0. reflexivity.
    - destruct (decide (lastFailureTime t = lastFireTime t)); [|lia].
      apply wrap_range. }
  split; [reflexivity|]. split; [apply Hiter|]. split.
  - unfold spin. rewrite spin_from_cons, Hiter.
    eexists. split; [reflexivity|].
    cbn [tk emitted Emit with_tk state lastFailureMessage set_state].
    split; reflexivity.
  - intros Hn. rewrite decide_False by exact Hn. reflexivity.
Qed.

Lemma threshold_zero_disables_witness :
  Schedule.State (Scenario.active 0) = Schedule.Active
  /\ exists s',
       spin [RecvResponse (Scenario.active 0) 200 run_succeeds]
         (with_tk (SetStopOnFailure 0 (tk Scenario.sys2)) Scenario.sys2)
       = Return ExitOnFailures s'
       /\ state (tk s') = TaskDisabled
       /\ emitted s' =
            emitted Scenario.sys2 ++
              [mkTaskDisabledEvent (id (tk Scenario.sys2))
                 (Sprintf_disabled (lastFailureMessage (tk s')))].
Proof.
  split; [reflexivity|].
  apply (threshold_zero_disables Scenario.sys2 0 (Scenario.active 0) 200
           run_succeeds).
  reflexivity.
Defined.

Lemma boot_tk p now sc wf m mm em opts :
  tk (boot p now sc wf m mm em opts)
  = Option opts
      (newTask_literal (fst (IdGen.id (idCounter p)))
         (Some (length (chans p))) now sc wf m mm em).
Proof. reflexivity. Qed.

Lemma boot_fields p now sc wf m mm em opts :
  state (tk (boot p now sc wf m mm em opts)) = TaskStopped
  /\ hitCount (tk (boot p now sc wf m mm em opts)) = 0
  /\ missedIntervals (tk (boot p now sc wf m mm em opts)) = 0
  /\ killChan (tk (boot p now sc wf m mm em opts)) = None
  /\ spinners (boot p now sc wf m mm em opts) = []
  /\ emitted (boot p now sc wf m mm em opts) = [].
Proof.
  rewrite boot_tk.
  destruct (Option_frame opts
              (newTask_literal (fst (IdGen.id (idCounter p)))
                 (Some (length (chans p))) now sc wf m mm em))
    as (-> & -> & -> & _ & _ & -> & _).
  repeat split.
Qed.

Lemma Spin_stopped s :
  state (tk s) = TaskStopped ->
  Spin s = mkSys (set_killChan (Some (length (heap s)))
                    (set_state TaskSpinning (tk s)))
             (heap s ++ [ChOpen]) (spinners s ++ [0]) (emitted s).
Proof. intros H. unfold Spin. rewrite decide_True by exact H. reflexivity. Qed.

Lemma Spin_not_stopped s : state (tk s) <> TaskStopped -> Spin s = s.
Proof. intros H. unfold Spin. rewrite decide_False by exact H. reflexivity. Qed.



(** *** What every interleaving preserves *)

Lemma boot_consistent p now sc wf m mm em opts :
  consistent (boot p now sc wf m mm em opts).
Proof.
  destruct (boot_fields p now sc wf m mm em opts)
    as (Hst & _ & _ & _ & Hsp & He).
  unfold consistent. rewrite Hsp, He, Hst. split; [left|left]; reflexivity.
Qed.

Lemma close_chan_lookup c h h' :
  close_chan c h = Some h' ->
  exists a, c = Some a /\ h !! a = Some ChOpen
            /\ h' = <[a := ChClosed]> h.
Proof.
  unfold close_chan. destruct c as [a|]; [|discriminate].
  destruct (h !! a) as [[|]|] eqn:Ha; try discriminate.
  intros H. injection H as <-. exists a.
  split; [reflexivity|]. split; [exact Ha | reflexivity].
Qed.

Lemma is_Some_insert (h : list chan_state) (a b : nat) v :
  is_Some (h !! a) -> is_Some (<[b := v]> h !! a).
Proof.
  intros H. apply lookup_lt_is_Some. rewrite length_insert.
  apply lookup_lt_is_Some. exact H.
Qed.

Lemma step_consistent a s s' :
  consistent s -> step a s = Next s' -> consistent s'.
Proof.
  unfold consistent. destruct s as [t h sp em]. simpl.
  intros (Hsp & Hem) Hstep.
  destruct a as [| | |opts|g o]; simpl in Hstep.
  - (* Spin *)
    injection Hstep as <-. unfold Spin. simpl.
    destruct (decide (state t = TaskStopped)) as [Hst|Hst]; simpl.
    + destruct sp as [|cf [|cf2 sp]]; simpl.
      * split; [|destruct Hem as [->|(ev & _ & Hd)]; [left; reflexivity|congruence]].
        split; [left; reflexivity|]. split.
        -- exists (length h). split; [reflexivity|].
           apply lookup_lt_is_Some. rewrite length_app. simpl. lia.
        -- destruct Hem as [->|(ev & _ & Hd)]; [reflexivity|congruence].
      * destruct Hsp as ([Hs|Hs] & _); congruence.
      * destruct Hsp.
    + split; assumption.
  - (* Stop *)
    unfold Stop in Hstep. simpl in Hstep.
    destruct (decide _) as [Hst|Hst].
    + destruct (close_chan (killChan t) h) as [h'|] eqn:Hc; [|discriminate].
      injection Hstep as <-. simpl.
      apply close_chan_lookup in Hc as (a & Hk & Ha & ->).
      split; [|exact Hem].
      destruct sp as [|cf [|cf2 sp]]; [exact Hsp | | exact Hsp].
      destruct Hsp as (H1 & (a' & Hk' & Ha') & H3).
      split; [exact H1|]. split; [|exact H3].
      exists a'. split; [exact Hk'|]. apply is_Some_insert. exact Ha'.
    + injection Hstep as <-. simpl. split; assumption.
  - (* Kill *)
    unfold Kill in Hstep. simpl in Hstep.
    destruct (decide _) as [Hst|Hst].
    + destruct (close_chan (killChan t) h) as [h'|] eqn:Hc; [|discriminate].
      injection Hstep as <-. simpl.
      apply close_chan_lookup in Hc as (a & Hk & Ha & ->).
      destruct sp as [|cf [|cf2 sp]]; [| |destruct Hsp].
      * destruct Hst as [Hst|Hst], Hsp as [Hs|[Hs|Hs]]; congruence.
      * destruct Hsp as (H1 & (a' & Hk' & Ha') & H3).
        split; [|left; exact H3].
        split; [right; reflexivity|]. split; [|exact H3].
        exists a'. split; [exact Hk'|]. apply is_Some_insert. exact Ha'.
    + injection Hstep as <-. simpl. split; assumption.
  - (* Option *)
    injection Hstep as <-. simpl.
    destruct (Option_frame opts t) as (-> & _ & _ & _ & _ & -> & _).
    split; assumption.
  - (* one iteration of a live loop *)
    destruct sp as [|cf [|cf2 sp]]; [| |destruct Hsp].
    { rewrite lookup_nil in Hstep. discriminate. }
    destruct g as [|g]; [|rewrite lookup_cons_ne_0, lookup_nil in Hstep by lia; discriminate].
    simpl in Hstep.
    destruct Hsp as (H1 & (a' & Hk' & Ha') & H3). subst em.
    destruct o as [sr now w|]; simpl in Hstep.
    + destruct (Schedule.State sr); simpl in Hstep.
      * destruct (decide _); injection Hstep as <-; simpl.
        -- split; [right; right; reflexivity|].
           right. eexists. split; reflexivity.
        -- split; [|left; reflexivity].
           split; [left; reflexivity|]. split; [|reflexivity].
           exists a'. split; assumption.
      * injection Hstep as <-; simpl.
        split; [right; left; reflexivity | left; reflexivity].
      * injection Hstep as <-; simpl.
        split; [right; right; reflexivity | left; reflexivity].
    + destruct (recv_ready (killChan t) h); [|discriminate].
      injection Hstep as <-; simpl.
      split; [left; reflexivity | left; reflexivity].
Qed.

Lemma run_consistent acts : forall s s',
  consistent s -> run acts s = Next s' -> consistent s'.
Proof.
  induction acts as [|a acts IH]; intros s s' Hc Hrun; simpl in Hrun.
  - injection Hrun as <-. exact Hc.
  - destruct (step a s) as [s1| |] eqn:Hstep; try discriminate.
    eapply IH; [|exact Hrun]. eapply step_consistent; eassumption.
Qed.

(** C4: an [Ended] response makes the loop return in state [TaskEnded],
    an [Error] response in state [TaskDisabled], and neither emits an
    event.  However the loop runs, it emits an event only when it returns
    from its failure branch, and then exactly one; and over the whole life
    of a task, whatever is called and however its loop runs, at most one
    event is emitted, the task being [TaskDisabled] with no loop left once
    it is. *)
Theorem ended_and_error_emit_nothing :
  (forall (s : sys) (cf : Z) (sr : Schedule.Response) (now : Time)
          (w : workflow_run),
     Schedule.State sr = Schedule.Ended ->
     exists s',
       spin_iter (RecvResponse sr now w) cf s = Return ExitEnded s'
       /\ state (tk s') = TaskEnded /\ emitted s' = emitted s)
  /\ (forall (s : sys) (cf : Z) (sr : Schedule.Response) (now : Time)
             (w : workflow_run),
        Schedule.State sr = Schedule.Error ->
        exists s',
          spin_iter (RecvResponse sr now w) cf s = Return ExitError s'
          /\ state (tk s') = TaskDisabled /\ emitted s' = emitted s)
  /\ (forall (os : list select_outcome) (cf : Z) (s : sys),
        match spin_from os cf s with
        | Return ExitOnFailures s' =>
            state (tk s') = TaskDisabled
            /\ exists ev, emitted s' = emitted s ++ [ev]
                          /\ TaskID ev = id (tk s)
        | Return _ s' => emitted s' = emitted s
        | Continue _ s' => emitted s' = emitted s
        | Blocked => True
        end)
  /\ (forall (p : proc) (now : Time) (sc wf m mm em : ref)
             (opts : list TaskOption) (acts : list action) (s : sys),
        run acts (boot p now sc wf m mm em opts) = Next s ->
        emitted s = []
        \/ exists ev, emitted s = [ev] /\ state (tk s) = TaskDisabled
                      /\ spinners s = []).
Proof.
  split; [|split; [|split]].
  - intros s cf sr now w H. simpl. rewrite H.
    eexists. split; [reflexivity|]. split; reflexivity.
  - intros s cf sr now w H. simpl. rewrite H.
    eexists. split; [reflexivity|]. split; reflexivity.
  - intros os cf s. pose proof (spin_from_emitted os cf s) as H.
    destruct (spin_from os cf s) as [cf' s'|e s'|]; [apply H | | exact I].
    destruct e; try exact H.
    destruct H as (He & Hst). split; [exact Hst|].
    eexists. split; [exact He | reflexivity].
  - intros p now sc wf m mm em opts acts s Hrun.
    pose proof (run_consistent acts _ _
                  (boot_consistent p now sc wf m mm em opts) Hrun) as Hc.
    destruct Hc as (Hsp & [He|(ev & He & Hst)]); [left; exact He|].
    right. exists ev. split; [exact He|]. split; [exact Hst|].
    destruct (spinners s) as [|cf [|cf2 sp]]; [reflexivity | | destruct Hsp].
    destruct Hsp as (_ & _ & Hn). congruence.
Qed.

Lemma ended_and_error_emit_nothing_witness :
  Schedule.State Scenario.ended = Schedule.Ended
  /\ exists s',
       spin_iter (RecvResponse Scenario.ended 200 run_succeeds) 0
         Scenario.sys2 = Return ExitEnded s'
       /\ state (tk s') = TaskEnded
       /\ emitted s' = emitted Scenario.sys2.
Proof.
  split; [reflexivity|].
  apply (proj1 ended_and_error_emit_nothing Scenario.sys2 0 Scenario.ended
           200 run_succeeds).
  reflexivity.
Defined.

(** *** Stop *)

Lemma Stop_open s a :
  state (tk s) = TaskSpinning \/ state (tk s) = TaskFiring ->
  killChan (tk s) = Some a -> heap s !! a = Some ChOpen ->
  Stop s = Some (mkSys (tk s) (<[a := ChClosed]> (heap s)) (spinners s)
                   (emitted s)).
Proof.
  intros Hst Hk Ha. unfold Stop.
  rewrite decide_True by tauto.
  unfold close_chan. rewrite Hk, Ha. reflexivity.
Qed.

Lemma Stop_closed s a :
  state (tk s) = TaskSpinning \/ state (tk s) = TaskFiring ->
  killChan (tk s) = Some a -> heap s !! a = Some ChClosed ->
  Stop s = None.
Proof.
  intros Hst Hk Ha. unfold Stop.
  rewrite decide_True by tauto.
  unfold close_chan. rewrite Hk, Ha. reflexivity.
Qed.

Lemma kill_observed s a cf :
  killChan (tk s) = Some a -> heap s !! a = Some ChClosed ->
  spin_iter RecvKill cf s
  = Return ExitKilled
      (with_tk (set_lastFireTime zeroTime (set_state TaskStopped (tk s))) s).
Proof.
  intros Hk Ha. unfold spin_iter, recv_ready. rewrite Hk.
  rewrite bool_decide_eq_true_2 by exact Ha. reflexivity.
Qed.

(** What [Stop] does while the kill signal is open.  In any state a task
    can reach from the factory in which it is [TaskSpinning] (or
    [TaskFiring]), the task has a kill signal and one live loop; [Stop]
    closes the signal if it is open, and panics in [close] if it is closed
    already.  Once the signal is closed, the iteration in which the loop
    receives it sets the state to [TaskStopped] and [lastFireTime] to the
    zero time and ends the loop; [Spin] then starts the task again, with a
    new open kill signal and a new loop. *)
Theorem stop_then_loop_stops (p : proc) (now : Time) (sc wf m mm em : ref)
    (opts : list TaskOption) (acts : list action) (s : sys) :
  run acts (boot p now sc wf m mm em opts) = Next s ->
  state (tk s) = TaskSpinning \/ state (tk s) = TaskFiring ->
  exists a cf,
    killChan (tk s) = Some a /\ spinners s = [cf]
    /\ (heap s !! a = Some ChOpen
        /\ step CallStop s
           = Next (mkSys (tk s) (<[a := ChClosed]> (heap s)) (spinners s)
                     (emitted s))
        /\ (<[a := ChClosed]> (heap s)) !! a = Some ChClosed
        /\ (exists s3,
              run [CallStop; Select 0%nat RecvKill; CallSpin] s = Next s3
              /\ state (tk s3) = TaskSpinning /\ spinners s3 = [0])
        \/ heap s !! a = Some ChClosed /\ step CallStop s = Panic)
    /\ (forall s1 cf1,
         killChan (tk s1) = Some a -> heap s1 !! a = Some ChClosed ->
         spinners s1 = [cf1] ->
         exists s2,
           step (Select 0%nat RecvKill) s1 = Next s2
           /\ state (tk s2) = TaskStopped
           /\ lastFireTime (tk s2) = zeroTime
           /\ spinners s2 = []
           /\ exists s3,
                step CallSpin s2 = Next s3
                /\ state (tk s3) = TaskSpinning
                /\ spinners s3 = [0]
                /\ killChan (tk s3) = Some (length (heap s2))
                /\ heap s2 !! length (heap s2) = None
                /\ heap s3 !! length (heap s2) = Some ChOpen)
    /\ forall s1 a1,
         state (tk s1) = TaskSpinning \/ state (tk s1) = TaskFiring ->
         killChan (tk s1) = Some a1 -> heap s1 !! a1 = Some ChOpen ->
         step CallStop s1
         = Next (mkSys (tk s1) (<[a1 := ChClosed]> (heap s1)) (spinners s1)
                   (emitted s1)).
Proof.
  intros Hrun Hst.
  pose proof (run_consistent acts _ _
                (boot_consistent p now sc wf m mm em opts) Hrun) as Hc.
  destruct Hc as (Hsp & _).
  destruct (spinners s) as [|cf [|cf2 sp]] eqn:Hspin; [| |destruct Hsp].
  { destruct Hst as [Hst|Hst], Hsp as [Hs|[Hs|Hs]]; congruence. }
  destruct Hsp as (_ & (a & Hk & Ha) & _).
  assert (forall s1 cf1,
         killChan (tk s1) = Some a -> heap s1 !! a = Some ChClosed ->
         spinners s1 = [cf1] ->
         exists s2,
           step (Select 0%nat RecvKill) s1 = Next s2
           /\ state (tk s2) = TaskStopped
           /\ lastFireTime (tk s2) = zeroTime
           /\ spinners s2 = []
           /\ exists s3,
                step CallSpin s2 = Next s3
                /\ state (tk s3) = TaskSpinning
                /\ spinners s3 = [0]
                /\ killChan (tk s3) = Some (length (heap s2))
                /\ heap s2 !! length (heap s2) = None
                /\ heap s3 !! length (heap s2) = Some ChOpen) as Hloop.
  { intros [t1 h1 sp1 em1] cf1 Hk1 Ha1 Hsp1. simpl in Hk1, Ha1, Hsp1.
    subst sp1. unfold step. cbn [spinners].
    change ([cf1] !! 0%nat) with (Some cf1). cbv beta iota.
    rewrite (kill_observed (mkSys t1 h1 [cf1] em1) a cf1 Hk1 Ha1).
    eexists. split; [reflexivity|]. simpl.
    split; [reflexivity|]. split; [reflexivity|]. split; [reflexivity|].
    eexists. split; [reflexivity|]. unfold Spin. simpl.
    split; [reflexivity|]. split; [reflexivity|]. split; [reflexivity|].
    split.
    - apply lookup_ge_None_2. lia.
    - apply list_lookup_middle. reflexivity. }
  exists a, cf. split; [exact Hk|]. split; [reflexivity|].
  split; [|split; [exact Hloop|]];
    [|intros s1 a1 Hst1 Hk1 Ha1; simpl;
      rewrite (Stop_open s1 a1) by assumption; reflexivity].
  destruct Ha as [[|] Ha].
  - left. split; [exact Ha|].
    assert ((<[a := ChClosed]> (heap s)) !! a = Some ChClosed) as Hcl.
    { apply list_lookup_insert_eq. apply lookup_lt_Some in Ha. exact Ha. }
    assert (step CallStop s
            = Next (mkSys (tk s) (<[a := ChClosed]> (heap s)) [cf]
                      (emitted s))) as Hstop.
    { simpl. rewrite (Stop_open s a) by assumption.
      rewrite Hspin. reflexivity. }
    split; [exact Hstop|]. split; [exact Hcl|].
    destruct (Hloop (mkSys (tk s) (<[a := ChClosed]> (heap s)) [cf]
                       (emitted s)) cf)
      as (s2 & H2 & _ & _ & _ & s3 & H3 & Hst3 & Hsp3 & _).
    + exact Hk.
    + exact Hcl.
    + reflexivity.
    + exists s3. split; [|split; assumption].
      cbn [run]. rewrite Hstop, H2, H3. reflexivity.
  - right. split; [exact Ha|].
    simpl. rewrite (Stop_closed s a) by assumption. reflexivity.
Qed.

Lemma stop_then_loop_stops_witness :
  run [CallSpin; Select 0%nat (RecvResponse (Scenario.active 1) 200
                                run_succeeds)] Scenario.sys1
    = Next (mkSys (active_fire (Scenario.active 1) 200 run_succeeds
                     (tk (Spin Scenario.sys1)))
              [ChOpen; ChOpen] [0] [])
  /\ exists s3,
       run [CallStop; Select 0%nat RecvKill; CallSpin]
         (mkSys (active_fire (Scenario.active 1) 200 run_succeeds
                   (tk (Spin Scenario.sys1)))
            [ChOpen; ChOpen] [0] [])
         = Next s3
       /\ state (tk s3) = TaskSpinning /\ spinners s3 = [0].
Proof.
  assert (run [CallSpin; Select 0%nat (RecvResponse (Scenario.active 1) 200
                                        run_succeeds)] Scenario.sys1
          = Next (mkSys (active_fire (Scenario.active 1) 200 run_succeeds
                           (tk (Spin Scenario.sys1)))
                    [ChOpen; ChOpen] [0] [])) as Hrun by reflexivity.
  split; [exact Hrun|].
  destruct (stop_then_loop_stops Scenario.proc0 100 10%nat 11%nat 12%nat
              13%nat 14%nat [] _ _ Hrun (or_introl eq_refl))
    as (a & cf & _ & _ & [(_ & _ & _ & H)|(Hc & _)] & _).
  - exact H.
  - exfalso. vm_compute in Hc. destruct a as [|[|[|a]]]; discriminate Hc.
Defined.

(** C2: the claim fails on a second [Stop].  [Stop] closes the kill signal
    of a started task and leaves the state [TaskSpinning]; until the loop
    has received the signal a further [Stop] passes the same guard, closes
    the closed channel and panics, for every task fresh from the factory.
    ([Kill] sets the state to [TaskDisabled] after closing, so a call after
    [Kill] does not reach [close].) *)
Theorem stop_twice_panics (p : proc) (now : Time) (sc wf m mm em : ref)
    (opts : list TaskOption) :
  exists s1 s2,
    run [CallSpin] (boot p now sc wf m mm em opts) = Next s1
    /\ state (tk s1) = TaskSpinning
    /\ step CallStop s1 = Next s2
    /\ state (tk s2) = TaskSpinning
    /\ recv_ready (killChan (tk s2)) (heap s2) = true
    /\ step CallStop s2 = Panic
    /\ run [CallSpin; CallStop; CallStop] (boot p now sc wf m mm em opts)
       = Panic.
Proof.
  destruct (boot_fields p now sc wf m mm em opts) as (Hst & _).
  set (b := boot p now sc wf m mm em opts) in *. clearbody b.
  set (a := length (heap b)).
  set (s1 := mkSys (set_killChan (Some a) (set_state TaskSpinning (tk b)))
               (heap b ++ [ChOpen]) (spinners b ++ [0]) (emitted b)).
  set (s2 := mkSys (tk s1) (<[a := ChClosed]> (heap s1)) (spinners s1)
               (emitted s1)).
  assert (Spin b = s1) as HSpin by (apply Spin_stopped; exact Hst).
  assert (heap s1 !! a = Some ChOpen) as Hopen
    by (apply list_lookup_middle; reflexivity).
  assert (heap s2 !! a = Some ChClosed) as Hclosed.
  { apply list_lookup_insert_eq. apply lookup_lt_Some in Hopen. exact Hopen. }
  assert (step CallStop s1 = Next s2) as H1.
  { simpl. rewrite (Stop_open s1 a); [reflexivity | left; reflexivity
                                     | reflexivity | exact Hopen]. }
  assert (step CallStop s2 = Panic) as H2.
  { simpl. rewrite (Stop_closed s2 a); [reflexivity | left; reflexivity
                                       | reflexivity | exact Hclosed]. }
  exists s1, s2.
  split; [cbn [run step]; rewrite HSpin; reflexivity|].
  split; [reflexivity|]. split; [exact H1|]. split; [reflexivity|].
  split.
  { unfold recv_ready. cbn [tk killChan s2 s1 set_killChan].
    apply bool_decide_eq_true_2. exact Hclosed. }
  split; [exact H2|].
  cbn [run]. change (step CallSpin b) with (Next (Spin b)).
  rewrite HSpin, H1, H2. reflexivity.
Qed.

(** *** Start *)

Lemma step_armed a s s' :
  closes_kill a = false -> armed s -> step a s = Next s' -> armed s'.
Proof.
  unfold armed. intros Ha (Hst & c & Hk & Hc) Hstep.
  destruct a as [| | |opts|g o]; try discriminate Ha; simpl in Hstep.
  - rewrite Spin_not_stopped in Hstep by exact Hst.
    injection Hstep as <-. eauto.
  - injection Hstep as <-. cbn [tk with_tk heap].
    destruct (Option_frame opts (tk s)) as (-> & _ & _ & _ & _ & -> & _).
    eauto.
  - destruct (spinners s !! g) as [cf|]; [|discriminate].
    destruct o as [sr now w|].
    + destruct (Schedule.State sr) eqn:Hsr.
      * rewrite spin_iter_active in Hstep by exact Hsr. cbv zeta in Hstep.
        destruct (active_fire_fields sr now w (tk s))
          as (_ & _ & Hk' & Hst' & _).
        destruct (decide _); injection Hstep as <-;
          cbn [tk with_tk with_spinners Emit heap].
        -- destruct (set_state_frame TaskDisabled
                       (active_fire sr now w (tk s)))
             as (-> & _ & _ & _ & _ & _ & ->).
           rewrite Hk'. split; [discriminate|eauto].
        -- rewrite Hk', Hst'. split; [discriminate|eauto].
      * unfold spin_iter in Hstep. rewrite Hsr in Hstep.
        injection Hstep as <-. cbn. split; [discriminate|eauto].
      * unfold spin_iter in Hstep. rewrite Hsr in Hstep.
        injection Hstep as <-. cbn. split; [discriminate|eauto].
    + unfold spin_iter, recv_ready in Hstep. rewrite Hk in Hstep.
      rewrite bool_decide_eq_false_2 in Hstep by congruence.
      discriminate.
Qed.

Lemma run_armed acts : forall s s',
  forallb (fun a => negb (closes_kill a)) acts = true ->
  armed s -> run acts s = Next s' -> armed s'.
Proof.
  induction acts as [|a acts IH]; intros s s' Hacts Harm Hrun;
    simpl in Hrun, Hacts.
  - injection Hrun as <-. exact Harm.
  - apply andb_prop in Hacts as (Ha & Hacts).
    destruct (step a s) as [s1| |] eqn:Hstep; try discriminate.
    eapply IH; [exact Hacts | | exact Hrun].
    eapply step_armed; [|exact Harm|exact Hstep].
    destruct (closes_kill a); [discriminate|reflexivity].
Qed.

Lemma Spin_armed s : state (tk s) = TaskStopped -> armed (Spin s).
Proof.
  intros Hst. rewrite Spin_stopped by exact Hst. unfold armed.
  cbn. split; [discriminate|].
  exists (length (heap s)). split; [reflexivity|].
  apply list_lookup_middle. reflexivity.
Qed.

(** C7: [Spin] acts only on a task that is [TaskStopped]: it sets the
    state to [TaskSpinning], allocates a new kill signal and launches one
    [spin] goroutine; in any other state it changes nothing.  So a second
    [Spin] right after a first changes nothing, nor does a second [Spin]
    after a first that started the task, whatever the loop did in between,
    as long as neither [Stop] nor [Kill] was called; and a task never has
    two live [spin] goroutines. *)
Theorem Spin_only_from_stopped :
  (forall s : sys,
     state (tk s) = TaskStopped ->
     Spin s = mkSys (set_killChan (Some (length (heap s)))
                       (set_state TaskSpinning (tk s)))
                (heap s ++ [ChOpen]) (spinners s ++ [0]) (emitted s)
     /\ state (tk (Spin s)) = TaskSpinning
     /\ heap s !! length (heap s) = None
     /\ heap (Spin s) !! length (heap s) = Some ChOpen
     /\ length (spinners (Spin s)) = S (length (spinners s)))
  /\ (forall s : sys, state (tk s) <> TaskStopped -> Spin s = s)
  /\ (forall s : sys, Spin (Spin s) = Spin s)
  /\ (forall (s : sys) (acts : list action) (s' : sys),
        state (tk s) = TaskStopped ->
        forallb (fun a => negb (closes_kill a)) acts = true ->
        run acts (Spin s) = Next s' ->
        Spin s' = s')
  /\ (forall (p : proc) (now : Time) (sc wf m mm em : ref)
             (opts : list TaskOption) (acts : list action) (s : sys),
        run acts (boot p now sc wf m mm em opts) = Next s ->
        (length (spinners s) <= 1)%nat
        /\ (spinners s <> [] -> Spin s = s)).
Proof.
  split; [|split; [|split; [|split]]].
  - intros s Hst. rewrite Spin_stopped by exact Hst. cbn.
    split; [reflexivity|]. split; [reflexivity|].
    split; [apply lookup_ge_None_2; lia|].
    split; [apply list_lookup_middle; reflexivity|].
    rewrite length_app. simpl. lia.
  - apply Spin_not_stopped.
  - intros s. destruct (decide (state (tk s) = TaskStopped)) as [Hst|Hst].
    + apply Spin_not_stopped. rewrite Spin_stopped by exact Hst.
      cbn. discriminate.
    + rewrite (Spin_not_stopped s Hst). apply Spin_not_stopped. exact Hst.
  - intros s acts s' Hst Hacts Hrun.
    apply Spin_not_stopped.
    apply (run_armed acts (Spin s) s' Hacts (Spin_armed s Hst) Hrun).
  - intros p now sc wf m mm em opts acts s Hrun.
    pose proof (run_consistent acts _ _
                  (boot_consistent p now sc wf m mm em opts) Hrun) as Hc.
    destruct Hc as (Hsp & _).
    destruct (spinners s) as [|cf [|cf2 sp]]; [| |destruct Hsp].
    + split; [simpl; lia | congruence].
    + split; [simpl; lia|]. intros _. apply Spin_not_stopped.
      destruct Hsp as ([Hs|Hs] & _); congruence.
Qed.

Lemma Spin_only_from_stopped_witness :
  state (tk Scenario.sys1) = TaskStopped
  /\ Spin (Spin Scenario.sys1) = Spin Scenario.sys1
  /\ length (spinners (Spin (Spin Scenario.sys1))) = 1%nat
  /\ exists s',
       run [Select 0%nat (RecvResponse (Scenario.active 0) 200
                            (run_fails "boom"))]
         (Spin Scenario.sys1) = Next s'
       /\ Spin s' = s'.
Proof.
  assert (state (tk Scenario.sys1) = TaskStopped) as Hst by reflexivity.
  split; [exact Hst|].
  split; [apply (proj1 (proj2 (proj2 Spin_only_from_stopped)))|].
  split; [reflexivity|].
  eexists. split; [reflexivity|].
  apply (proj1 (proj2 (proj2 (proj2 Spin_only_from_stopped)))
           Scenario.sys1
           [Select 0%nat (RecvResponse (Scenario.active 0) 200
                            (run_fails "boom"))]
           _ Hst eq_refl eq_refl).
Defined.

End SpinFacts.

(** ** More on the task collection *)
Module CollectionMore.
Import Task Collection CollectionOps Vocabulary2.

Lemma collection_eta c : mkCollection (table c) = c.
Proof. destruct c. reflexivity. Qed.

Lemma add_cases h c p t :
  h !! p = Some t ->
  add h c p
  = match table c !! id t with
    | None => Some (mkCollection (<[id t := p]> (table c)), None)
    | Some _ => Some (c, Some ErrTaskHasAlreadyBeenAdded)
    end.
Proof. intros H. unfold add. rewrite H. reflexivity. Qed.

Lemma remove_cases h c p t :
  h !! p = Some t ->
  remove h c p
  = match table c !! id t with
    | Some _ =>
        if decide (state t ≠ TaskStopped) then
          Some (c, Some ErrTaskNotStopped)
        else Some (mkCollection (delete (id t) (table c)), None)
    | None => Some (c, Some ErrTaskNotFound)
    end.
Proof. intros H. unfold remove. rewrite H. reflexivity. Qed.

(** X1: adding a stopped task whose id is free and removing it again gives
    back the collection one started from. *)
Theorem add_then_remove (h : task_heap) (c : taskCollection) (p : ptr)
    (t : task) :
  h !! p = Some t -> table c !! id t = None -> state t = TaskStopped ->
  exists c1,
    add h c p = Some (c1, None)
    /\ Get c1 (id t) = Some p
    /\ remove h c1 p = Some (c, None).
Proof.
  intros Hp Hfree Hst.
  exists (mkCollection (<[id t := p]> (table c))).
  rewrite (add_cases h c p t Hp), Hfree.
  split; [reflexivity|]. split.
  - unfold Get. simpl. rewrite lookup_insert_eq. reflexivity.
  - rewrite (remove_cases h _ p t Hp). simpl.
    rewrite lookup_insert_eq.
    rewrite decide_False by (intros Hn; apply Hn; exact Hst).
    rewrite delete_insert_id by exact Hfree.
    rewrite collection_eta. reflexivity.
Qed.

Lemma add_then_remove_witness :
  Scenario.tasks1 !! 9%nat = Some Scenario.task3
  /\ exists c1,
       add Scenario.tasks1 Scenario.registry1 9%nat = Some (c1, None)
       /\ Get c1 (id Scenario.task3) = Some 9%nat
       /\ remove Scenario.tasks1 c1 9%nat = Some (Scenario.registry1, None).
Proof.
  assert (Scenario.tasks1 !! 9%nat = Some Scenario.task3) as H
    by (vm_compute; reflexivity).
  split; [exact H|].
  apply (add_then_remove Scenario.tasks1 Scenario.registry1 9%nat
           Scenario.task3 H); vm_compute; reflexivity.
Defined.

(** X2: after a successful [remove] the task is gone: [Get] returns nil, a
    second [remove] returns [ErrTaskNotFound] and leaves the collection as
    it is, and the task can be added again. *)
Theorem remove_then_remove (h : task_heap) (c c1 : taskCollection) (p : ptr)
    (t : task) :
  h !! p = Some t -> remove h c p = Some (c1, None) ->
  Get c1 (id t) = None
  /\ remove h c1 p = Some (c1, Some ErrTaskNotFound)
  /\ exists c2, add h c1 p = Some (c2, None) /\ Get c2 (id t) = Some p.
Proof.
  intros Hp Hrem. rewrite (remove_cases h c p t Hp) in Hrem.
  destruct (table c !! id t) as [q|]; [|discriminate].
  destruct (decide (state t ≠ TaskStopped)); [discriminate|].
  injection Hrem as <-.
  assert (table (mkCollection (delete (id t) (table c))) !! id t = None)
    as Hgone by (simpl; apply lookup_delete_eq).
  split; [unfold Get; rewrite Hgone; reflexivity|].
  split.
  - rewrite (remove_cases h _ p t Hp), Hgone. reflexivity.
  - rewrite (add_cases h _ p t Hp), Hgone.
    eexists. split; [reflexivity|].
    unfold Get. simpl. rewrite lookup_insert_eq. reflexivity.
Qed.

Lemma remove_then_remove_witness :
  Scenario.tasks1 !! 7%nat = Some Scenario.task1
  /\ exists c1,
       remove Scenario.tasks1 Scenario.registry1 7%nat = Some (c1, None)
       /\ Get c1 (id Scenario.task1) = None
       /\ remove Scenario.tasks1 c1 7%nat = Some (c1, Some ErrTaskNotFound).
Proof.
  assert (Scenario.tasks1 !! 7%nat = Some Scenario.task1) as H
    by (vm_compute; reflexivity).
  split; [exact H|].
  eexists. split; [vm_compute; reflexivity|].
  match goal with
  | |- Get ?c1 _ = _ /\ _ =>
      destruct (remove_then_remove Scenario.tasks1 Scenario.registry1 c1
                  7%nat Scenario.task1 H) as (H1 & H2 & _)
  end.
  - vm_compute. reflexivity.
  - split; [exact H1 | exact H2].
Defined.

(** X3: the number of registered tasks goes up by one on an [add] that
    returns no error, down by one on a [remove] that returns no error, and
    stays as it is whenever an error is returned. *)
Theorem size_after_add_remove (h : task_heap) (c c' : taskCollection)
    (p : ptr) (e : option error) :
  (add h c p = Some (c', e) ->
     size (table c') = match e with
                       | None => S (size (table c))
                       | Some _ => size (table c)
                       end)
  /\ (remove h c p = Some (c', e) ->
        match e with
        | None => S (size (table c')) = size (table c)
        | Some _ => size (table c') = size (table c)
        end).
Proof.
  split; intros H.
  - unfold add in H. destruct (h !! p) as [t|]; [|discriminate].
    destruct (table c !! id t) as [q|] eqn:Hq; injection H as <- <-.
    + reflexivity.
    + simpl. apply map_size_insert_None. exact Hq.
  - unfold remove in H. destruct (h !! p) as [t|]; [|discriminate].
    destruct (table c !! id t) as [q|] eqn:Hq.
    + destruct (decide (state t ≠ TaskStopped)); injection H as <- <-.
      * reflexivity.
      * simpl. rewrite map_size_delete, Hq.
        assert (size (table c) <> 0%nat) as Hne.
        { intros H0. apply map_size_empty_inv in H0.
          rewrite H0, lookup_empty in Hq. discriminate. }
        simpl. lia.
    + injection H as <- <-. reflexivity.
Qed.

Lemma size_after_add_remove_witness :
  add Scenario.tasks1 Scenario.registry1 9%nat
    = Some (mkCollection (<[3 := 9%nat]> (table Scenario.registry1)), None)
  /\ size (<[3 := 9%nat]> (table Scenario.registry1))
     = S (size (table Scenario.registry1)).
Proof.
  assert (add Scenario.tasks1 Scenario.registry1 9%nat
          = Some (mkCollection (<[3 := 9%nat]> (table Scenario.registry1)),
                  None)) as H by (vm_compute; reflexivity).
  split; [exact H|].
  apply (proj1 (size_after_add_remove Scenario.tasks1 Scenario.registry1
                  (mkCollection (<[3 := 9%nat]> (table Scenario.registry1)))
                  9%nat None) H).
Defined.

Lemma after_call_keyed h c o c' :
  keyed h c -> after_call h c o = Some c' -> keyed h c'.
Proof.
  intros Hk H. destruct o as [p|p]; simpl in H.
  - unfold add in H. destruct (h !! p) as [t|] eqn:Hp; [|discriminate].
    destruct (table c !! id t) as [q|] eqn:Hq; injection H as <-.
    + exact Hk.
    + intros i r Hi. simpl in Hi.
      destruct (decide (id t = i)) as [<-|Hne].
      * rewrite lookup_insert_eq in Hi. injection Hi as <-. eauto.
      * rewrite lookup_insert_ne in Hi by exact Hne. eauto.
  - unfold remove in H. destruct (h !! p) as [t|] eqn:Hp; [|discriminate].
    destruct (table c !! id t) as [q|] eqn:Hq.
    + destruct (decide (state t ≠ TaskStopped)); injection H as <-.
      * exact Hk.
      * intros i r Hi. simpl in Hi.
        apply lookup_delete_Some in Hi as (_ & Hi). eauto.
    + injection H as <-. exact Hk.
Qed.

Lemma after_calls_keyed h os : forall c c',
  keyed h c -> after_calls h os c = Some c' -> keyed h c'.
Proof.
  induction os as [|o os IH]; intros c c' Hk H; simpl in H.
  - injection H as <-. exact Hk.
  - destruct (after_call h c o) as [c1|] eqn:Ho; [|discriminate].
    eapply IH; [|exact H]. eapply after_call_keyed; eassumption.
Qed.

(** X4: in a collection built from a new one by any calls of [add] and
    [remove], [Get id] returns nil or the address of a task whose id is
    [id]; so no task is stored under two ids. *)
Theorem Get_returns_task_of_that_id (h : task_heap) (os : list call)
    (c : taskCollection) :
  after_calls h os newTaskCollection = Some c ->
  (forall i p, Get c i = Some p -> exists t, h !! p = Some t /\ id t = i)
  /\ (forall i j p, Get c i = Some p -> Get c j = Some p -> i = j).
Proof.
  intros H.
  assert (keyed h c) as Hk.
  { apply (after_calls_keyed h os newTaskCollection c); [|exact H].
    intros i p Hi. simpl in Hi. rewrite lookup_empty in Hi. discriminate. }
  assert (forall i p, Get c i = Some p -> table c !! i = Some p) as HG.
  { intros i p. unfold Get. destruct (table c !! i); congruence. }
  split.
  - intros i p Hi. apply Hk, HG, Hi.
  - intros i j p Hi Hj.
    destruct (Hk i p (HG _ _ Hi)) as (t & Ht & <-).
    destruct (Hk j p (HG _ _ Hj)) as (t' & Ht' & <-).
    congruence.
Qed.

Lemma Get_returns_task_of_that_id_witness :
  after_calls Scenario.tasks1 [CallAdd 7%nat; CallAdd 8%nat; CallRemove 8%nat]
    newTaskCollection
  = Some Scenario.registry1
  /\ forall i p, Get Scenario.registry1 i = Some p ->
       exists t, Scenario.tasks1 !! p = Some t /\ id t = i.
Proof.
  assert (after_calls Scenario.tasks1
            [CallAdd 7%nat; CallAdd 8%nat; CallRemove 8%nat]
            newTaskCollection = Some Scenario.registry1) as H
    by (vm_compute; reflexivity).
  split; [exact H|].
  apply (proj1 (Get_returns_task_of_that_id Scenario.tasks1 _ _ H)).
Defined.

(** X5: a registered task that is not stopped stays registered under its
    id whatever calls of [add] and [remove] are made, as long as no other
    task object carries its id. *)
Theorem running_task_stays_registered (h : task_heap) (os : list call)
    (c c' : taskCollection) (p : ptr) (t : task) :
  h !! p = Some t -> state t <> TaskStopped ->
  (forall q t', h !! q = Some t' -> id t' = id t -> q = p) ->
  Get c (id t) = Some p ->
  after_calls h os c = Some c' ->
  Get c' (id t) = Some p.
Proof.
  intros Hp Hst Huniq. revert c.
  induction os as [|o os IH]; intros c HG H; simpl in H.
  - injection H as <-. exact HG.
  - destruct (after_call h c o) as [c1|] eqn:Ho; [|discriminate].
    apply (IH c1); [|exact H].
    assert (table c !! id t = Some p) as Ht.
    { unfold Get in HG. destruct (table c !! id t); congruence. }
    assert (forall c2, table c2 !! id t = Some p -> Get c2 (id t) = Some p)
      as Hback.
    { intros c2 H2. unfold Get. rewrite H2. reflexivity. }
    apply Hback.
    destruct o as [q|q]; simpl in Ho.
    + unfold add in Ho. destruct (h !! q) as [t'|] eqn:Hq; [|discriminate].
      destruct (table c !! id t') as [r|] eqn:Hr; injection Ho as <-.
      * exact Ht.
      * simpl. rewrite lookup_insert_ne; [exact Ht|].
        intros Heq. rewrite Heq in Hr. congruence.
    + unfold remove in Ho. destruct (h !! q) as [t'|] eqn:Hq; [|discriminate].
      destruct (table c !! id t') as [r|] eqn:Hr.
      * destruct (decide (state t' ≠ TaskStopped)) as [Hs|Hs];
          injection Ho as <-; [exact Ht|].
        simpl. rewrite lookup_delete_ne; [exact Ht|].
        intros Heq. assert (q = p) as -> by (apply (Huniq q t' Hq Heq)).
        rewrite Hp in Hq. injection Hq as <-. contradiction.
      * injection Ho as <-. exact Ht.
Qed.

Lemma running_task_stays_registered_witness :
  Scenario.tasks1 !! 8%nat = Some Scenario.task2
  /\ state Scenario.task2 <> TaskStopped
  /\ Get Scenario.registry1 (id Scenario.task2) = Some 8%nat
  /\ after_calls Scenario.tasks1 [CallRemove 8%nat; CallRemove 7%nat]
       Scenario.registry1
     = Some (mkCollection (<[2 := 8%nat]> ∅))
  /\ Get (mkCollection (<[2 := 8%nat]> ∅)) (id Scenario.task2) = Some 8%nat.
Proof.
  assert (Scenario.tasks1 !! 8%nat = Some Scenario.task2) as H
    by (vm_compute; reflexivity).
  assert (state Scenario.task2 <> TaskStopped) as Hs
    by (vm_compute; discriminate).
  assert (Get Scenario.registry1 (id Scenario.task2) = Some 8%nat) as HG
    by (vm_compute; reflexivity).
  assert (after_calls Scenario.tasks1 [CallRemove 8%nat; CallRemove 7%nat]
            Scenario.registry1
          = Some (mkCollection (<[2 := 8%nat]> ∅))) as Hc
    by (vm_compute; reflexivity).
  split; [exact H|]. split; [exact Hs|].
  split; [exact HG|]. split; [exact Hc|].
  apply (running_task_stays_registered Scenario.tasks1
           [CallRemove 8%nat; CallRemove 7%nat] Scenario.registry1
           (mkCollection (<[2 := 8%nat]> ∅)) 8%nat
           Scenario.task2 H Hs); [| exact HG | exact Hc].
  intros q t' Hq Hid.
  destruct (decide (q = 8%nat)) as [->|H8]; [reflexivity|].
  exfalso.
  destruct (decide (q = 9%nat)) as [->|H9].
  { vm_compute in Hq. injection Hq as <-. vm_compute in Hid. discriminate. }
  destruct (decide (q = 7%nat)) as [->|H7].
  { vm_compute in Hq. injection Hq as <-. vm_compute in Hid. discriminate. }
  cbv delta [Scenario.tasks1 task_heap] in Hq.
  rewrite !lookup_insert_ne, lookup_empty in Hq by congruence.
  discriminate.
Defined.

End CollectionMore.

(** ** More on the spin loop *)
Module SpinMore.
Import Go Task scheduler_event Spin Vocabulary Vocabulary2.
Import IdGenFacts TaskFacts SpinFacts.

#[local] Arguments active_fire : simpl never.
#[local] Opaque active_fire.

Lemma same_config_refl t : same_config t t.
Proof. repeat split. Qed.

Lemma same_config_trans t1 t2 t3 :
  same_config t1 t2 -> same_config t2 t3 -> same_config t1 t3.
Proof.
  unfold same_config.
  intros (a1 & a2 & a3 & a4 & a5 & a6 & a7 & a8 & a9 & a10 & a11 & a12)
         (b1 & b2 & b3 & b4 & b5 & b6 & b7 & b8 & b9 & b10 & b11 & b12).
  repeat split; congruence.
Qed.

Lemma same_config_set_state v t : same_config t (set_state v t).
Proof. repeat split. Qed.

Lemma same_config_active_fire sr now w t :
  same_config t (active_fire sr now w t).
Proof. rewrite active_fire_unfold. repeat split. Qed.

(** One iteration writes neither to the configuration of the task nor to
    the channel heap. *)
Lemma spin_iter_frame o cf s :
  match spin_iter o cf s with
  | Continue _ s' | Return _ s' =>
      same_config (tk s) (tk s') /\ heap s' = heap s
      /\ spinners s' = spinners s
  | Blocked => True
  end.
Proof.
  destruct o as [sr now w|].
  - destruct (Schedule.State sr) eqn:Hsr.
    + rewrite spin_iter_active by exact Hsr. cbv zeta.
      destruct (decide _); cbn [tk heap spinners Emit with_tk].
      * split; [|split; reflexivity].
        eapply same_config_trans;
          [apply same_config_active_fire | apply same_config_set_state].
      * split; [|split; reflexivity]. apply same_config_active_fire.
    + unfold spin_iter. rewrite Hsr. cbn [tk heap spinners with_tk].
      split; [apply same_config_set_state | split; reflexivity].
    + unfold spin_iter. rewrite Hsr. cbn [tk heap spinners with_tk].
      split; [apply same_config_set_state | split; reflexivity].
  - unfold spin_iter. destruct (recv_ready _ _); [|exact I].
    cbn [tk heap spinners with_tk]. split; [|split; reflexivity].
    repeat split.
Qed.

Lemma spin_from_threshold os : forall cf s cf' s',
  spin_from os cf s = Continue cf' s' ->
  stopOnFailure (tk s') = stopOnFailure (tk s).
Proof.
  induction os as [|o os IH]; intros cf s cf' s' Hrun.
  - simpl in Hrun. injection Hrun as _ <-. reflexivity.
  - rewrite spin_from_cons in Hrun.
    pose proof (spin_iter_frame o cf s) as Ho.
    destruct (spin_iter o cf s) as [cf1 s1|e s1|]; try discriminate.
    destruct Ho as (Hc & _).
    destruct Hc as (_ & _ & _ & _ & _ & _ & _ & _ & _ & _ & Hk & _).
    rewrite (IH _ _ _ _ Hrun). exact Hk.
Qed.

(** X6: however long the loop runs and however it ends, it leaves the
    task's id, name, creation time, deadline, stop-on-failure threshold,
    channels and collaborator references as they were, and writes to no
    channel. *)
Theorem spin_keeps_configuration (os : list select_outcome) (cf : Z)
    (s : sys) :
  match spin_from os cf s with
  | Continue _ s' | Return _ s' =>
      same_config (tk s) (tk s') /\ heap s' = heap s
  | Blocked => True
  end.
Proof.
  revert cf s. induction os as [|o os IH]; intros cf s.
  - simpl. split; [apply same_config_refl | reflexivity].
  - rewrite spin_from_cons.
    pose proof (spin_iter_frame o cf s) as Ho.
    destruct (spin_iter o cf s) as [cf1 s1|e s1|]; [| |exact I].
    + destruct Ho as (Hc & Hh & _). specialize (IH cf1 s1).
      destruct (spin_from os cf1 s1) as [cf2 s2|e s2|]; [| |exact I];
        destruct IH as (Hc2 & Hh2);
        (split; [eapply same_config_trans; eassumption | congruence]).
    + destruct Ho as (Hc & Hh & _). split; assumption.
Qed.

(** X7: while the loop keeps running, every response it has received was
    [Active] and was fired: the hit count has grown by the number of
    responses and the missed count by the ticks they reported (in [uint]
    arithmetic), the last fire time is the clock reading at the last of
    them, and the state is [TaskSpinning]. *)
Theorem spin_counts_fires (os : list select_outcome) (cf cf' : Z)
    (s s' : sys) :
  0 <= hitCount (tk s) < uint_mod ->
  0 <= missedIntervals (tk s) < uint_mod ->
  spin_from os cf s = Continue cf' s' ->
  hitCount (tk s') = wrap (hitCount (tk s) + Z.of_nat (length os))
  /\ missedIntervals (tk s')
     = wrap (missedIntervals (tk s) + missed_total os)
  /\ lastFireTime (tk s') = last_now (lastFireTime (tk s)) os
  /\ (os <> [] -> state (tk s') = TaskSpinning)
  /\ Forall (fun o => exists sr now w,
               o = RecvResponse sr now w
               /\ Schedule.State sr = Schedule.Active) os.
Proof.
  revert cf s. induction os as [|o os IH]; intros cf s Hh Hm Hrun.
  - simpl in Hrun. injection Hrun as _ <-. simpl.
    rewrite !Z.add_0_r, !wrap_small by assumption.
    repeat split; [congruence | constructor].
  - rewrite spin_from_cons in Hrun.
    destruct o as [sr now w|].
    + destruct (Schedule.State sr) eqn:Hsr.
      * rewrite spin_iter_active in Hrun by exact Hsr. cbv zeta in Hrun.
        destruct (decide _); [discriminate|].
        destruct (active_fire_fields sr now w (tk s))
          as (_ & _ & _ & Hst1 & Hh1 & Hm1 & Hl1).
        assert (0 <= hitCount (tk (with_tk (active_fire sr now w (tk s)) s))
                < uint_mod) as Hh'.
        { cbn [tk with_tk]. rewrite Hh1. apply wrap_range. }
        assert (0 <= missedIntervals
                       (tk (with_tk (active_fire sr now w (tk s)) s))
                < uint_mod) as Hm'.
        { cbn [tk with_tk]. rewrite Hm1. apply wrap_range. }
        destruct (IH _ _ Hh' Hm' Hrun) as (IHh & IHm & IHl & IHs & IHf).
        cbn [tk with_tk] in IHh, IHm, IHl.
        rewrite Hh1 in IHh. rewrite Hm1 in IHm. rewrite Hl1 in IHl.
        split.
        { rewrite IHh. unfold wrap.
          rewrite Z.add_mod_idemp_l by discriminate.
          f_equal. rewrite length_cons. lia. }
        split.
        { rewrite IHm. unfold wrap.
          rewrite Z.add_mod_idemp_l by discriminate.
          f_equal. simpl. lia. }
        split.
        { rewrite IHl. reflexivity. }
        split.
        { intros _. destruct os as [|o' os'].
          - simpl in Hrun. injection Hrun as _ <-. exact Hst1.
          - apply IHs. discriminate. }
        constructor; [eauto|exact IHf].
      * unfold spin_iter in Hrun. rewrite Hsr in Hrun. discriminate.
      * unfold spin_iter in Hrun. rewrite Hsr in Hrun. discriminate.
    + unfold spin_iter in Hrun. destruct (recv_ready _ _); discriminate.
Qed.

Lemma spin_counts_fires_witness :
  exists cf' s',
    spin_from [RecvResponse (Scenario.active 2) 200 run_succeeds;
               RecvResponse (Scenario.active 5) 300 (run_fails "boom")]
      0 Scenario.sys2 = Continue cf' s'
    /\ hitCount (tk s') = 2 /\ missedIntervals (tk s') = 7
    /\ lastFireTime (tk s') = 300.
Proof.
  eexists. eexists. split; [reflexivity|].
  match goal with
  | |- hitCount (tk ?s') = _ /\ _ =>
      destruct (spin_counts_fires
                  [RecvResponse (Scenario.active 2) 200 run_succeeds;
                   RecvResponse (Scenario.active 5) 300 (run_fails "boom")]
                  0 1 Scenario.sys2 s')
        as (H1 & H2 & H3 & _)
  end.
  - vm_compute. split; [discriminate | reflexivity].
  - vm_compute. split; [discriminate | reflexivity].
  - reflexivity.
  - split; [exact H1|]. split; [exact H2 | exact H3].
Defined.

(** X8: a loop that is still running after at least one response has its
    consecutive-failure counter below the task's threshold, which the loop
    has not changed. *)
Theorem running_counter_below_threshold (os : list select_outcome)
    (cf cf' : Z) (s s' : sys) :
  os <> [] -> spin_from os cf s = Continue cf' s' ->
  0 <= cf' < stopOnFailure (tk s')
  /\ stopOnFailure (tk s') = stopOnFailure (tk s).
Proof.
  intros Hne Hrun.
  assert (stopOnFailure (tk s') = stopOnFailure (tk s)) as Hk.
  { apply (spin_from_threshold os cf s cf' s' Hrun). }
  split; [|exact Hk].
  destruct (exists_last (l := os) Hne) as (os0 & o & ->).
  rewrite spin_from_app in Hrun.
  destruct (spin_from os0 cf s) as [cf0 s0|e s0|]; try discriminate.
  rewrite spin_from_cons in Hrun.
  destruct o as [sr now w|].
  - destruct (Schedule.State sr) eqn:Hsr.
    + rewrite spin_iter_active in Hrun by exact Hsr. cbv zeta in Hrun.
      destruct (decide _) as [|Hlt]; [discriminate|].
      cbn [spin_from] in Hrun. injection Hrun as <- <-.
      cbn [tk with_tk] in Hk |- *.
      destruct (decide (lastFailureTime (active_fire sr now w (tk s0))
                        = lastFireTime (active_fire sr now w (tk s0))));
        [pose proof (wrap_range (cf0 + 1)); lia | lia].
    + unfold spin_iter in Hrun. rewrite Hsr in Hrun. discriminate.
    + unfold spin_iter in Hrun. rewrite Hsr in Hrun. discriminate.
  - unfold spin_iter in Hrun. destruct (recv_ready _ _); discriminate.
Qed.

Lemma running_counter_below_threshold_witness :
  exists cf' s',
    spin_from [RecvResponse (Scenario.active 0) 200 (run_fails "boom");
               RecvResponse (Scenario.active 0) 201 (run_fails "boom")]
      0 Scenario.sys2 = Continue cf' s'
    /\ 0 <= cf' < stopOnFailure (tk s').
Proof.
  eexists. eexists. split; [reflexivity|].
  refine (proj1 (running_counter_below_threshold
                   [RecvResponse (Scenario.active 0) 200 (run_fails "boom");
                    RecvResponse (Scenario.active 0) 201 (run_fails "boom")]
                   0 _ Scenario.sys2 _ _ eq_refl)).
  discriminate.
Defined.

(** X9: with a threshold of at least 1, a loop whose fires never fail
    never disables the task and never emits an event, however many
    responses it receives; its counter is 0 after each of them. *)
Theorem spin_never_disables_without_failure (os : list select_outcome)
    (cf : Z) (s : sys) :
  1 <= stopOnFailure (tk s) -> all_succeed os (tk s) ->
  exists s',
    spin_from os cf s = Continue (match os with [] => cf | _ => 0 end) s'
    /\ emitted s' = emitted s
    /\ (os <> [] -> state (tk s') = TaskSpinning).
Proof.
  revert cf s. induction os as [|o os IH]; intros cf s Hk Hall.
  - exists s. simpl. repeat split. congruence.
  - destruct o as [sr now w|]; [|destruct Hall].
    destruct Hall as (Ha & Hok & Hall).
    rewrite spin_from_cons.
    rewrite spin_iter_active_succeeds by assumption.
    destruct (active_fire_fields sr now w (tk s))
      as (_ & Hk1 & _ & Hst1 & _).
    destruct (IH 0 (with_tk (active_fire sr now w (tk s)) s))
      as (s' & Hrun & He & Hst).
    + cbn [tk with_tk]. rewrite Hk1. exact Hk.
    + exact Hall.
    + exists s'. cbn [emitted with_tk] in He.
      split; [|split; [exact He|]].
      * rewrite Hrun. destruct os; reflexivity.
      * intros _. destruct os as [|o' os'].
        -- simpl in Hrun. injection Hrun as <-. exact Hst1.
        -- apply Hst. discriminate.
Qed.

Lemma spin_never_disables_without_failure_witness :
  let os := [RecvResponse (Scenario.active 0) 200 run_succeeds;
             RecvResponse (Scenario.active 3) 201 run_succeeds;
             RecvResponse (Scenario.active 0) 202 run_succeeds;
             RecvResponse (Scenario.active 0) 203 run_succeeds] in
  1 <= stopOnFailure (tk Scenario.sys2)
  /\ all_succeed os (tk Scenario.sys2)
  /\ exists s',
       spin_from os 0 Scenario.sys2 = Continue 0 s'
       /\ emitted s' = emitted Scenario.sys2
       /\ (os <> [] -> state (tk s') = TaskSpinning).
Proof.
  intros os.
  assert (1 <= stopOnFailure (tk Scenario.sys2)) as Hk
    by (vm_compute; discriminate).
  assert (all_succeed os (tk Scenario.sys2)) as Hall.
  { vm_compute. repeat split; discriminate. }
  split; [exact Hk|]. split; [exact Hall|].
  apply (spin_never_disables_without_failure os 0 Scenario.sys2 Hk Hall).
Defined.

Lemma step_final a s s' :
  spinners s = [] ->
  state (tk s) = TaskEnded \/ state (tk s) = TaskDisabled ->
  step a s = Next s' ->
  state (tk s') = state (tk s) /\ spinners s' = []
  /\ emitted s' = emitted s /\ heap s' = heap s.
Proof.
  intros Hsp Hst Hstep.
  assert (state (tk s) <> TaskStopped) as Hns
    by (destruct Hst as [H|H]; rewrite H; discriminate).
  assert (~ (state (tk s) = TaskFiring \/ state (tk s) = TaskSpinning))
    as Hnf by (destruct Hst as [H|H]; rewrite H; intros [?|?]; discriminate).
  destruct a as [| | |opts|g o]; simpl in Hstep.
  - rewrite Spin_not_stopped in Hstep by exact Hns.
    injection Hstep as <-. repeat split. exact Hsp.
  - unfold Stop in Hstep. rewrite decide_False in Hstep by exact Hnf.
    injection Hstep as <-. repeat split. exact Hsp.
  - unfold Kill in Hstep. rewrite decide_False in Hstep by exact Hnf.
    injection Hstep as <-. repeat split. exact Hsp.
  - injection Hstep as <-. cbn [tk with_tk spinners emitted heap].
    destruct (Option_frame opts (tk s)) as (-> & _).
    repeat split. exact Hsp.
  - rewrite Hsp, lookup_nil in Hstep. discriminate.
Qed.

Lemma step_final_no_panic a s :
  state (tk s) = TaskEnded \/ state (tk s) = TaskDisabled ->
  step a s <> Panic.
Proof.
  intros Hst.
  assert (~ (state (tk s) = TaskFiring \/ state (tk s) = TaskSpinning))
    as Hnf by (destruct Hst as [H|H]; rewrite H; intros [?|?]; discriminate).
  destruct a as [| | |opts|g o]; simpl; try discriminate.
  - unfold Stop. rewrite decide_False by exact Hnf. discriminate.
  - unfold Kill. rewrite decide_False by exact Hnf. discriminate.
  - destruct (spinners s !! g); [|discriminate].
    destruct (spin_iter o z s); discriminate.
Qed.

(** X10: a task that is [TaskEnded] or [TaskDisabled] with no loop left is
    final: no call of [Spin], [Stop], [Kill] or [Option] changes its state,
    starts a loop, touches a channel or emits an event, and none of them
    panics; in particular [Spin] does not start it again. *)
Theorem ended_or_disabled_is_final (acts : list action) (s : sys) :
  spinners s = [] ->
  state (tk s) = TaskEnded \/ state (tk s) = TaskDisabled ->
  run acts s <> Panic
  /\ forall s', run acts s = Next s' ->
       state (tk s') = state (tk s) /\ spinners s' = []
       /\ emitted s' = emitted s /\ heap s' = heap s
       /\ Spin s' = s'.
Proof.
  revert s. induction acts as [|a acts IH]; intros s Hsp Hst.
  - simpl. split; [discriminate|].
    intros s' H. injection H as <-. repeat split; try assumption.
    apply Spin_not_stopped. destruct Hst as [H|H]; rewrite H; discriminate.
  - simpl. pose proof (step_final_no_panic a s Hst) as Hnp.
    destruct (step a s) as [s1| |] eqn:Hstep; [|contradiction|].
    + destruct (step_final a s s1 Hsp Hst Hstep) as (H1 & H2 & H3 & H4).
      destruct (IH s1 H2) as (Hp & Hall); [rewrite H1; exact Hst|].
      split; [exact Hp|].
      intros s' Hrun. destruct (Hall s' Hrun) as (G1 & G2 & G3 & G4 & G5).
      repeat split; congruence.
    + split; [discriminate|]. intros s' H. discriminate H.
Qed.

Lemma ended_or_disabled_is_final_witness :
  exists s,
    spin [RecvResponse Scenario.ended 200 run_succeeds] Scenario.sys2
      = Return ExitEnded s
    /\ run [CallSpin; CallStop; CallKill; CallSpin]
         (with_spinners [] s) = Next (with_spinners [] s).
Proof.
  eexists. split; [reflexivity|].
  match goal with
  | |- run ?acts ?s0 = _ =>
      destruct (ended_or_disabled_is_final acts s0 eq_refl
                  (or_introl eq_refl)) as (_ & H)
  end.
  reflexivity.
Defined.

(** *** Kill and repeated stops *)









(** *** Channels *)

Lemma Option_chans opts t :
  schResponseChan (Option opts t) = schResponseChan t
  /\ lastFireTime (Option opts t) = lastFireTime t.
Proof.
  unfold Option. revert t. induction opts as [|o opts IH]; intros t.
  - split; reflexivity.
  - simpl. destruct (IH (apply_opt t o)) as (-> & ->).
    destruct o; split; reflexivity.
Qed.

Lemma boot_wired p now sc wf m mm em opts :
  wired (boot p now sc wf m mm em opts)
  /\ schResponseChan (tk (boot p now sc wf m mm em opts))
     = Some (length (chans p)).
Proof.
  destruct (boot_fields p now sc wf m mm em opts) as (_ & _ & _ & Hk & _).
  assert (schResponseChan (tk (boot p now sc wf m mm em opts))
          = Some (length (chans p))) as Hc.
  { rewrite boot_tk.
    destruct (Option_chans opts
                (newTask_literal (fst (IdGen.id (idCounter p)))
                   (Some (length (chans p))) now sc wf m mm em)) as (-> & _).
    reflexivity. }
  split; [|exact Hc].
  exists (length (chans p)). split; [exact Hc|]. split.
  - change (heap (boot p now sc wf m mm em opts)) with (chans p ++ [ChOpen]).
    apply list_lookup_middle. reflexivity.
  - intros b Hb. rewrite Hk in Hb. discriminate.
Qed.

Lemma lookup_insert_other (h : list chan_state) (a b : nat) c v :
  a <> b -> h !! a = Some c -> <[b := v]> h !! a = Some c.
Proof.
  intros Hne Ha. rewrite list_lookup_insert_ne by congruence. exact Ha.
Qed.

Lemma lookup_app_old (h : list chan_state) (a : nat) c l :
  h !! a = Some c -> (h ++ l) !! a = Some c.
Proof. intros Ha. apply lookup_app_l_Some. exact Ha. Qed.

Lemma step_wired a s s' :
  wired s -> step a s = Next s' ->
  wired s' /\ schResponseChan (tk s') = schResponseChan (tk s).
Proof.
  intros (c & Hc & Hopen & Hkill) Hstep.
  destruct a as [| | |opts|g o]; simpl in Hstep.
  - injection Hstep as <-. unfold Spin.
    destruct (decide (state (tk s) = TaskStopped)); cbn.
    + split; [|reflexivity]. exists c. split; [exact Hc|].
      split; [apply lookup_app_old; exact Hopen|].
      intros b Hb. injection Hb as <-.
      apply lookup_lt_Some in Hopen. cbn [heap].
      rewrite length_app. simpl. lia.
    + split; [|reflexivity]. exists c. auto.
  - unfold Stop in Hstep. destruct (decide _).
    + destruct (close_chan (killChan (tk s)) (heap s)) as [h'|] eqn:Hcl;
        [|discriminate].
      injection Hstep as <-. cbn.
      apply close_chan_lookup in Hcl as (b & Hb & _ & ->).
      destruct (Hkill b Hb) as (Hlt & Hlen).
      split; [|reflexivity]. exists c. split; [exact Hc|].
      split; [apply lookup_insert_other; [lia | exact Hopen]|].
      intros b' Hb'. cbn [tk heap] in Hb' |- *.
      assert (length (<[b := ChClosed]> (heap s)) = length (heap s)) as ->
        by apply length_insert.
      apply Hkill. exact Hb'.
    + injection Hstep as <-. split; [|reflexivity]. exists c. auto.
  - unfold Kill in Hstep. destruct (decide _).
    + destruct (close_chan (killChan (tk s)) (heap s)) as [h'|] eqn:Hcl;
        [|discriminate].
      injection Hstep as <-. cbn.
      apply close_chan_lookup in Hcl as (b & Hb & _ & ->).
      destruct (Hkill b Hb) as (Hlt & Hlen).
      split; [|reflexivity]. exists c. split; [exact Hc|].
      split; [apply lookup_insert_other; [lia | exact Hopen]|].
      intros b' Hb'. cbn [tk heap] in Hb' |- *.
      assert (length (<[b := ChClosed]> (heap s)) = length (heap s)) as ->
        by apply length_insert.
      apply Hkill. exact Hb'.
    + injection Hstep as <-. split; [|reflexivity]. exists c. auto.
  - injection Hstep as <-. cbn [tk with_tk heap].
    destruct (Option_chans opts (tk s)) as (Hc' & _).
    destruct (Option_frame opts (tk s)) as (_ & _ & _ & _ & _ & Hk' & _).
    split; [|exact Hc']. exists c. cbn [tk with_tk heap].
    rewrite Hc', Hk'. auto.
  - destruct (spinners s !! g) as [cf|]; [|discriminate].
    pose proof (spin_iter_frame o cf s) as Hf.
    destruct (spin_iter o cf s) as [cf1 s1|e s1|]; [| |discriminate];
      injection Hstep as <-; cbn [tk with_spinners heap];
      destruct Hf as ((_ & _ & Hc1 & Hk1 & _) & Hh1 & _);
      (split; [|exact Hc1]); exists c; cbn [tk with_spinners heap];
      rewrite Hc1, Hk1, Hh1; auto.
Qed.

Lemma run_wired p now sc wf m mm em opts acts s :
  run acts (boot p now sc wf m mm em opts) = Next s ->
  wired s /\ schResponseChan (tk s) = Some (length (chans p)).
Proof.
  intros Hrun.
  destruct (boot_wired p now sc wf m mm em opts) as (Hw0 & Hc0).
  revert Hrun Hw0 Hc0. generalize (boot p now sc wf m mm em opts).
  induction acts as [|a acts IH]; intros s0 Hrun Hw0 Hc0; simpl in Hrun.
  - injection Hrun as <-. split; assumption.
  - destruct (step a s0) as [s1| |] eqn:Hstep; try discriminate.
    destruct (step_wired a s0 s1 Hw0 Hstep) as (Hw1 & Hc1).
    apply (IH s1 Hrun Hw1). congruence.
Qed.

(** X13: the response channel of a task is the one [newTask] made, for
    the whole life of the task: [Spin] makes a new kill signal but no new
    response channel, no call and no loop iteration replaces or closes it,
    and it is never the kill signal. *)
Theorem response_channel_is_for_life (p : proc) (now : Time)
    (sc wf m mm em : ref) (opts : list TaskOption) (acts : list action)
    (s : sys) :
  run acts (boot p now sc wf m mm em opts) = Next s ->
  schResponseChan (tk s) = Some (length (chans p))
  /\ heap s !! length (chans p) = Some ChOpen
  /\ killChan (tk s) <> schResponseChan (tk s).
Proof.
  intros Hrun.
  destruct (run_wired p now sc wf m mm em opts acts s Hrun) as (Hw & Hc).
  destruct Hw as (c & Hc' & Hopen & Hkill).
  rewrite Hc in Hc'. injection Hc' as <-.
  split; [exact Hc|]. split; [exact Hopen|].
  rewrite Hc. intros Hk. destruct (Hkill _ Hk) as (Hlt & _). lia.
Qed.

Lemma response_channel_is_for_life_witness :
  run [CallSpin; CallStop; Select 0%nat RecvKill; CallSpin] Scenario.sys1
    = Next (mkSys (set_killChan (Some 2%nat)
                     (set_state TaskSpinning (tk Scenario.sys1)))
              [ChOpen; ChClosed; ChOpen] [0] [])
  /\ schResponseChan (set_killChan (Some 2%nat)
                        (set_state TaskSpinning (tk Scenario.sys1)))
     = Some 0%nat.
Proof.
  assert (run [CallSpin; CallStop; Select 0%nat RecvKill; CallSpin]
            Scenario.sys1
          = Next (mkSys (set_killChan (Some 2%nat)
                           (set_state TaskSpinning (tk Scenario.sys1)))
                    [ChOpen; ChClosed; ChOpen] [0] [])) as H
    by reflexivity.
  split; [exact H|].
  apply (proj1 (response_channel_is_for_life Scenario.proc0 100 10%nat
                  11%nat 12%nat 13%nat 14%nat [] _ _ H)).
Defined.



(** *** The waiter *)
Section WithWaiter.
Import Waiter.

Lemma waiter_send_open W rcv pk t h a :
  schResponseChan t = Some a -> h !! a = Some ChOpen ->
  waitForSchedule W rcv pk t h
  = match recv_ready (killChan t) h, rcv with
    | true, true => if pk then GaveUp else Sent (W (lastFireTime t))
    | true, false => GaveUp
    | false, true => Sent (W (lastFireTime t))
    | false, false => Parked
    end.
Proof.
  intros Hc Ha. unfold waitForSchedule. rewrite Hc, Ha.
  destruct (recv_ready (killChan t) h), rcv; reflexivity.
Qed.

Lemma run_app acts1 : forall acts2 s,
  run (acts1 ++ acts2) s
  = match run acts1 s with
    | Next s1 => run acts2 s1
    | r => r
    end.
Proof.
  induction acts1 as [|a acts1 IH]; intros acts2 s; simpl.
  - reflexivity.
  - destruct (step a s); try reflexivity. apply IH.
Qed.

(** A closed channel stays closed. *)
Lemma step_keeps_closed a s s' (c : nat) :
  step a s = Next s' -> heap s !! c = Some ChClosed ->
  heap s' !! c = Some ChClosed.
Proof.
  intros Hstep Hc.
  destruct a as [| | |opts|g o]; simpl in Hstep.
  - injection Hstep as <-. unfold Spin.
    destruct (decide _); cbn [heap]; [|exact Hc].
    apply lookup_app_old. exact Hc.
  - unfold Stop in Hstep. destruct (decide _).
    + destruct (close_chan (killChan (tk s)) (heap s)) as [h'|] eqn:Hcl;
        [|discriminate].
      injection Hstep as <-. cbn [heap].
      apply close_chan_lookup in Hcl as (b & _ & Hb & ->).
      apply lookup_insert_other; [|exact Hc].
      intros ->. assert (Some ChClosed = Some ChOpen) as Habs
        by (etransitivity; [symmetry; exact Hc | exact Hb]).
      discriminate Habs.
    + injection Hstep as <-. exact Hc.
  - unfold Kill in Hstep. destruct (decide _).
    + destruct (close_chan (killChan (tk s)) (heap s)) as [h'|] eqn:Hcl;
        [|discriminate].
      injection Hstep as <-. cbn [heap].
      apply close_chan_lookup in Hcl as (b & _ & Hb & ->).
      apply lookup_insert_other; [|exact Hc].
      intros ->. assert (Some ChClosed = Some ChOpen) as Habs
        by (etransitivity; [symmetry; exact Hc | exact Hb]).
      discriminate Habs.
    + injection Hstep as <-. exact Hc.
  - injection Hstep as <-. exact Hc.
  - destruct (spinners s !! g) as [cf|]; [|discriminate].
    pose proof (spin_iter_frame o cf s) as Hf.
    destruct (spin_iter o cf s) as [cf1 s1|e s1|]; [| |discriminate];
      injection Hstep as <-; cbn [with_spinners heap];
      destruct Hf as (_ & Hh & _);
      (etransitivity; [|exact Hc]); f_equal; exact Hh.
Qed.

Lemma run_keeps_closed acts (c : nat) : forall s s',
  run acts s = Next s' -> heap s !! c = Some ChClosed ->
  heap s' !! c = Some ChClosed.
Proof.
  induction acts as [|a acts IH]; intros s s' Hrun Hc; simpl in Hrun.
  - injection Hrun as <-. exact Hc.
  - destruct (step a s) as [s1| |] eqn:Hstep; try discriminate.
    apply (IH s1 s' Hrun). apply (step_keeps_closed a s s1 c Hstep Hc).
Qed.

(** X15: a [waitForSchedule] goroutine that evaluated its operands in one
    state a task reaches from the factory and whose [select] commits in any
    later state never panics on its send, and what it sends, if anything,
    is [Wait(lastFireTime)] of the task it started on.  While its kill
    signal is open it sends when a receiver waits and parks otherwise.  A
    kill signal that was closed stays closed: with no receiver the
    goroutine then returns without sending, but with a receiver waiting,
    which can be the loop of a later [Spin], its [select] may still take
    the send. *)
Theorem waiter_across_states (p : proc) (now : Time) (sc wf m mm em : ref)
    (opts : list TaskOption) (acts acts' : list action) (s s' : sys)
    (W : Time -> Schedule.Response) (rcv pk : bool) :
  run acts (boot p now sc wf m mm em opts) = Next s ->
  run acts' s = Next s' ->
  let r := waitForSchedule W rcv pk (tk s) (heap s') in
  r <> SendPanics
  /\ (forall sr, r = Sent sr -> sr = W (lastFireTime (tk s)) /\ rcv = true)
  /\ (recv_ready (killChan (tk s)) (heap s') = false ->
        r = if rcv then Sent (W (lastFireTime (tk s))) else Parked)
  /\ (recv_ready (killChan (tk s)) (heap s) = true ->
        recv_ready (killChan (tk s)) (heap s') = true
        /\ r = if rcv
               then if pk then GaveUp else Sent (W (lastFireTime (tk s)))
               else GaveUp).
Proof.
  intros Hrun Hrun' r.
  destruct (run_wired p now sc wf m mm em opts acts s Hrun) as (_ & Hc).
  assert (run (acts ++ acts') (boot p now sc wf m mm em opts) = Next s')
    as Hboth by (rewrite run_app, Hrun; exact Hrun').
  destruct (run_wired p now sc wf m mm em opts (acts ++ acts') s' Hboth)
    as ((c & Hc' & Hopen & _) & Hc'').
  rewrite Hc'' in Hc'. injection Hc' as <-.
  assert (r = match recv_ready (killChan (tk s)) (heap s'), rcv with
              | true, true =>
                  if pk then GaveUp else Sent (W (lastFireTime (tk s)))
              | true, false => GaveUp
              | false, true => Sent (W (lastFireTime (tk s)))
              | false, false => Parked
              end) as Hr
    by (apply (waiter_send_open _ _ _ _ _ _ Hc Hopen)).
  split; [|split; [|split]].
  - rewrite Hr.
    destruct (recv_ready _ _), rcv, pk; discriminate.
  - intros sr Hs. rewrite Hr in Hs.
    destruct (recv_ready _ _), rcv, pk; try discriminate Hs;
      injection Hs as <-; split; reflexivity.
  - intros Hopen'. rewrite Hr, Hopen'. destruct rcv; reflexivity.
  - intros Hwas.
    assert (recv_ready (killChan (tk s)) (heap s') = true) as Hcl.
    { unfold recv_ready in *.
      destruct (killChan (tk s)) as [a|]; [|discriminate Hwas].
      apply bool_decide_eq_true in Hwas. apply bool_decide_eq_true_2.
      apply (run_keeps_closed acts' a s s' Hrun' Hwas). }
    split; [exact Hcl|].
    rewrite Hr, Hcl. destruct rcv; reflexivity.
Qed.

Lemma waiter_across_states_witness :
  exists s s',
    run [CallSpin; Select 0%nat (RecvResponse (Scenario.active 0) 200
                                  run_succeeds); CallStop]
      Scenario.sys1 = Next s
    /\ run [Select 0%nat RecvKill; CallSpin] s = Next s'
    /\ state (tk s') = TaskSpinning
    /\ waitForSchedule (fun last => Scenario.active last) true false (tk s)
         (heap s')
       = Sent (Scenario.active 200)
    /\ waitForSchedule (fun last => Scenario.active last) false false (tk s)
         (heap s')
       = GaveUp.
Proof.
  eexists. eexists. split; [reflexivity|]. split; [reflexivity|].
  split; [reflexivity|].
  match goal with
  | |- waitForSchedule ?W _ _ (tk ?s) (heap ?s') = _ /\ _ =>
      destruct (waiter_across_states Scenario.proc0 100 10%nat 11%nat 12%nat
                  13%nat 14%nat []
                  [CallSpin;
                   Select 0%nat (RecvResponse (Scenario.active 0) 200
                                   run_succeeds); CallStop]
                  [Select 0%nat RecvKill; CallSpin] s s' W true false
                  eq_refl eq_refl) as (_ & _ & _ & H1);
      destruct (waiter_across_states Scenario.proc0 100 10%nat 11%nat 12%nat
                  13%nat 14%nat []
                  [CallSpin;
                   Select 0%nat (RecvResponse (Scenario.active 0) 200
                                   run_succeeds); CallStop]
                  [Select 0%nat RecvKill; CallSpin] s s' W false false
                  eq_refl eq_refl) as (_ & _ & _ & H2)
  end.
  split; [apply H1 | apply H2]; reflexivity.
Defined.

End WithWaiter.

End SpinMore.

(** ** More on the identifier generator and the factory *)
Module FactoryMore.
Import Go IdGen Task.
Import IdGenFacts.

(** X18: two calls of [id] fewer than 2^64 calls apart return different
    ids, the call that returns 0 included; 2^64 calls later the same id
    comes back. *)
Theorem ids_repeat_with_period (m n : N) :
  (1 <= m)%N -> (m < n)%N -> Z.of_N n - Z.of_N m < uint_mod ->
  nth_id m <> nth_id n
  /\ nth_id (m + 2 ^ 64) = nth_id m.
Proof.
  intros H1 H2 H3. split.
  - rewrite !nth_id_spec by lia. unfold wrap. intros Heq.
    assert ((Z.of_N n - Z.of_N m) mod uint_mod = 0) as H0.
    { rewrite Zminus_mod, Heq, Z.sub_diag. reflexivity. }
    rewrite Z.mod_small in H0 by lia. lia.
  - rewrite !nth_id_spec by lia. unfold wrap.
    rewrite N2Z.inj_add.
    change (Z.of_N (2 ^ 64)) with (1 * uint_mod).
    apply Z_mod_plus_full.
Qed.

Lemma ids_repeat_with_period_witness :
  nth_id (2 ^ 64 - 1) <> nth_id (2 ^ 64)
  /\ nth_id (2 ^ 64 - 1 + 2 ^ 64) = nth_id (2 ^ 64 - 1).
Proof.
  apply (ids_repeat_with_period (2 ^ 64 - 1) (2 ^ 64));
    vm_compute; congruence.
Defined.

Lemma int64_low z : 0 <= z < 2 ^ 63 -> int64 z = z.
Proof.
  intros H. unfold int64, uint_mod, uint_bits.
  rewrite Z.mod_small; lia.
Qed.

Lemma int64_high z : 2 ^ 63 <= z < 2 ^ 64 -> int64 z = z - 2 ^ 64.
Proof.
  intros H. unfold int64, uint_mod, uint_bits.
  replace (z + 2 ^ 63) with (z - 2 ^ 63 + 1 * 2 ^ 64) by lia.
  rewrite Z_mod_plus_full, Z.mod_small; lia.
Qed.

Lemma int64_inj z1 z2 :
  0 <= z1 < uint_mod -> 0 <= z2 < uint_mod -> int64 z1 = int64 z2 ->
  z1 = z2.
Proof.
  unfold uint_mod, uint_bits. intros H1 H2 Heq.
  destruct (Z_lt_le_dec z1 (2 ^ 63)), (Z_lt_le_dec z2 (2 ^ 63)).
  - rewrite !int64_low in Heq by lia. exact Heq.
  - rewrite int64_low, int64_high in Heq by lia. lia.
  - rewrite int64_high, int64_low in Heq by lia. lia.
  - rewrite !int64_high in Heq by lia. lia.
Qed.

Lemma newTask_id p now sc wf m mm em opts :
  id (fst (newTask p now sc wf m mm em opts)) = wrap (idCounter p + 1)
  /\ idCounter (snd (newTask p now sc wf m mm em opts))
     = wrap (idCounter p + 1).
Proof.
  unfold newTask. simpl.
  destruct (TaskFacts.Option_frame opts
              (newTask_literal (wrap (idCounter p + 1))
                 (Some (length (chans p))) now sc wf m mm em))
    as (_ & _ & _ & _ & Hid & _).
  unfold Option in Hid. rewrite Hid. split; reflexivity.
Qed.

(** X19: [newTask] gives the task the next id and, with no name option,
    the name ["Task-"] followed by the id written as an [int64]: the id
    itself below 2^63, and the negative number [id - 2^64] from 2^63 on.
    Tasks made without a name option have the same name only if they have
    the same id, and two tasks made one after the other have different
    ids. *)
Theorem newTask_names (p1 p2 : proc) (now1 now2 : Time)
    (sc1 wf1 m1 mm1 em1 sc2 wf2 m2 mm2 em2 : ref)
    (opts : list TaskOption) :
  let t1 := fst (newTask p1 now1 sc1 wf1 m1 mm1 em1 []) in
  let t2 := fst (newTask p2 now2 sc2 wf2 m2 mm2 em2 []) in
  let t3 := fst (newTask (snd (newTask p1 now1 sc1 wf1 m1 mm1 em1 opts))
                   now2 sc2 wf2 m2 mm2 em2 opts) in
  id t1 = wrap (idCounter p1 + 1)
  /\ (id t1 < 2 ^ 63 -> name t1 = "Task-" +:+ pretty (id t1))
  /\ (2 ^ 63 <= id t1 -> name t1 = "Task-" +:+ pretty (id t1 - 2 ^ 64))
  /\ (name t1 = name t2 -> id t1 = id t2)
  /\ id t3 <> id (fst (newTask p1 now1 sc1 wf1 m1 mm1 em1 opts)).
Proof.
  intros t1 t2 t3.
  pose proof (wrap_range (idCounter p1 + 1)) as R1.
  pose proof (wrap_range (idCounter p2 + 1)) as R2.
  assert (id t1 = wrap (idCounter p1 + 1)) as Hid1 by reflexivity.
  assert (id t2 = wrap (idCounter p2 + 1)) as Hid2 by reflexivity.
  assert (name t1 = "Task-" +:+ pretty (int64 (id t1))) as Hn1
    by reflexivity.
  assert (name t2 = "Task-" +:+ pretty (int64 (id t2))) as Hn2
    by reflexivity.
  unfold uint_mod, uint_bits in R1, R2.
  split; [exact Hid1|]. split; [|split; [|split]].
  - intros Hlt. rewrite Hn1, int64_low by lia. reflexivity.
  - intros Hge. rewrite Hn1, int64_high by lia. reflexivity.
  - intros Heq. rewrite Hn1, Hn2 in Heq.
    apply (inj (String.app "Task-")) in Heq.
    apply (inj pretty) in Heq.
    apply int64_inj; unfold uint_mod, uint_bits; [lia | lia | exact Heq].
  - unfold t3.
    destruct (newTask_id p1 now1 sc1 wf1 m1 mm1 em1 opts) as (Ha & Hb).
    destruct (newTask_id (snd (newTask p1 now1 sc1 wf1 m1 mm1 em1 opts))
                now2 sc2 wf2 m2 mm2 em2 opts) as (Hc & _).
    rewrite Hc, Hb, Ha.
    set (x := wrap (idCounter p1 + 1)) in *.
    unfold wrap, uint_mod, uint_bits. intros Heq.
    destruct (Z.eq_dec x (2 ^ 64 - 1)) as [Hx|Hx].
    + rewrite Hx in Heq. vm_compute in Heq. discriminate Heq.
    + rewrite Z.mod_small in Heq by lia. lia.
Qed.

Lemma newTask_names_witness :
  let p := mkProc (2 ^ 63 - 1) [] in
  let t := fst (newTask p 100 10%nat 11%nat 12%nat 13%nat 14%nat []) in
  id t = 2 ^ 63
  /\ name t = "Task--9223372036854775808"
  /\ name Scenario.task1 = "Task-1".
Proof.
  intros p t.
  destruct (newTask_names p Scenario.proc0 100 100 10%nat 11%nat 12%nat
              13%nat 14%nat 10%nat 11%nat 12%nat 13%nat 14%nat [])
    as (Hid & _ & Hhigh & _).
  destruct (newTask_names Scenario.proc0 p 100 100 10%nat 11%nat 12%nat
              13%nat 14%nat 10%nat 11%nat 12%nat 13%nat 14%nat [])
    as (_ & Hlow & _).
  subst t. split; [exact Hid|]. split.
  - rewrite Hhigh by (vm_compute; discriminate). vm_compute. reflexivity.
  - unfold Scenario.task1. rewrite Hlow by (vm_compute; reflexivity).
    vm_compute. reflexivity.
Defined.

End FactoryMore.
